(** * A shallow embedding of [smalloc.c]

    The allocator manages one region obtained from [mmap] with an
    address-ordered doubly linked free list whose nodes are the in-band
    segment headers.  The embedding keeps the code's shape:

    - a C [int] is a [Z] with its 32-bit two's complement wrap-around
      written out ([wrap_int]); signed overflow is undefined in C, so the
      theorems are stated on inputs for which no operation wraps;
    - a pointer into the mapping is its byte offset from the start of the
      mapped block, [NULL] is [None];
    - the region's memory is a finite map from the offset of a header to the
      header stored there; the mapping of [/dev/zero] is zero-filled, so a
      header that was never written reads as all zeroes ([rd]).  Payload
      bytes are not modelled, and headers at different offsets do not share
      bytes: callers must not write into headers, and in runs that release
      only handles in use the code reads headers at the starts of segments,
      which lie at least a header apart.  What a stale header inside a
      merged or reallocated segment reads later is outside the model;
    - loops take fuel and return [None] when it runs out; more fuel never
      changes a result, and every reachable state has enough of it. *)

From Stdlib Require Import ZArith Lia List.
From stdpp Require Import base gmap list.

Local Open Scope Z_scope.

(** ** Machine integers *)

Definition int_max : Z := 2147483647.

Definition wrap_int (x : Z) : Z := (x + 2147483648) mod 4294967296 - 2147483648.

Definition int_add (a b : Z) : Z := wrap_int (a + b).
Definition int_sub (a b : Z) : Z := wrap_int (a - b).
Definition int_mul (a b : Z) : Z := wrap_int (a * b).
(** C division truncates towards zero. *)
Definition int_div (a b : Z) : Z := wrap_int (Z.quot a b).

(** ** Segment headers and the process-wide state *)

(** [sizeof(mem_seg_t)] under the LP64 ABI: two 4-byte ints and two 8-byte
    pointers. *)
Definition hdr_size : Z := 24.

Record mem_seg : Type := MemSeg {
  seg_size : Z;
  in_use : Z;
  next : option Z;
  prev : option Z
}.

Definition zero_seg : mem_seg := MemSeg 0 0 None None.

Record state : Type := State {
  base_address : option Z;
  free_list_head : option Z;
  total_region : Z;
  mem : gmap Z mem_seg
}.

(** Modelled from the spec: [Malloc_Status] is declared in [smalloc.h], which
    is not part of the sources; the spec gives its three integer fields. *)
Record Malloc_Status : Type := MallocStatus {
  success : Z;
  payload_offset : Z;
  hops : Z
}.

(** The state of the process before [my_init]. *)
Definition initial_state : state := State None None 0 ∅.

(** Reading and writing a header. *)
Definition rd (m : gmap Z mem_seg) (a : Z) : mem_seg := default zero_seg (m !! a).
Definition wr (m : gmap Z mem_seg) (a : Z) (h : mem_seg) : gmap Z mem_seg := <[a := h]> m.

Definition set_seg_size (a v : Z) (m : gmap Z mem_seg) : gmap Z mem_seg :=
  wr m a (MemSeg v (in_use (rd m a)) (next (rd m a)) (prev (rd m a))).
Definition set_in_use (a v : Z) (m : gmap Z mem_seg) : gmap Z mem_seg :=
  wr m a (MemSeg (seg_size (rd m a)) v (next (rd m a)) (prev (rd m a))).
Definition set_next (a : Z) (v : option Z) (m : gmap Z mem_seg) : gmap Z mem_seg :=
  wr m a (MemSeg (seg_size (rd m a)) (in_use (rd m a)) v (prev (rd m a))).
Definition set_prev (a : Z) (v : option Z) (m : gmap Z mem_seg) : gmap Z mem_seg :=
  wr m a (MemSeg (seg_size (rd m a)) (in_use (rd m a)) (next (rd m a)) v).

Definition with_mem (s : state) (m : gmap Z mem_seg) : state :=
  State (base_address s) (free_list_head s) (total_region s) m.
Definition with_head (s : state) (h : option Z) (m : gmap Z mem_seg) : state :=
  State (base_address s) h (total_region s) m.

(** ** The functions of [smalloc.c] *)

(** [((size + factor - 1) / factor) * factor] *)
Definition align_value (size factor : Z) : Z :=
  int_mul (int_div (int_sub (int_add size factor) 1) factor) factor.

(** The loop of [search_for_fit]: [current] walks the list, [steps] counts the
    nodes that were passed over. *)
Fixpoint search_loop (fuel : nat) (m : gmap Z mem_seg) (needed_size : Z)
    (current : option Z) (steps : Z) : option (option Z * Z) :=
  match fuel with
  | O => None
  | S fuel' =>
      match current with
      | None => Some (None, steps)
      | Some c =>
          if needed_size <=? seg_size (rd m c) then Some (Some c, steps)
          else search_loop fuel' m needed_size (next (rd m c)) (int_add steps 1)
      end
  end.

Definition search_for_fit (fuel : nat) (s : state) (needed_size : Z) : option (option Z * Z) :=
  search_loop fuel (mem s) needed_size (free_list_head s) 0.

(** The loop of [add_to_free_list]: advance [runner] while its successor exists
    and lies below [seg]. *)
Fixpoint find_position (fuel : nat) (m : gmap Z mem_seg) (seg runner : Z) : option Z :=
  match fuel with
  | O => None
  | S fuel' =>
      match next (rd m runner) with
      | Some n => if n <? seg then find_position fuel' m seg n else Some runner
      | None => Some runner
      end
  end.

Definition add_to_free_list (fuel : nat) (seg : Z) (s : state) : option state :=
  let m0 := set_in_use seg 0 (mem s) in
  match free_list_head s with
  | None => Some (with_head s (Some seg) (set_next seg None (set_prev seg None m0)))
  | Some h =>
      if seg <? h then
        let m1 := set_next seg (Some h) m0 in
        let m2 := set_prev seg None m1 in
        let m3 := set_prev h (Some seg) m2 in
        Some (with_head s (Some seg) m3)
      else
        match find_position fuel m0 seg h with
        | None => None
        | Some runner =>
            let m1 := set_next seg (next (rd m0 runner)) m0 in
            let m2 := match next (rd m1 runner) with
                      | Some n => set_prev n (Some seg) m1
                      | None => m1
                      end in
            let m3 := set_next runner (Some seg) m2 in
            let m4 := set_prev seg (Some runner) m3 in
            Some (with_head s (Some h) m4)
        end
  end.

Definition remove_from_free_list (seg : Z) (s : state) : state :=
  let m := mem s in
  let s1 :=
    if decide (Some seg = free_list_head s) then
      let h := next (rd m seg) in
      match h with
      | Some n => with_head s h (set_prev n None m)
      | None => with_head s h m
      end
    else
      let m1 := match prev (rd m seg) with
                | Some p => set_next p (next (rd m seg)) m
                | None => m
                end in
      let m2 := match next (rd m1 seg) with
                | Some n => set_prev n (prev (rd m1 seg)) m1
                | None => m1
                end in
      with_mem s m2 in
  with_mem s1 (set_next seg None (set_prev seg None (mem s1))).

(** The scan of [merge_adjacent] for a free segment that ends where [seg]
    starts. *)
Fixpoint find_prev (fuel : nat) (m : gmap Z mem_seg) (seg : Z) (temp : option Z)
    : option (option Z) :=
  match fuel with
  | O => None
  | S fuel' =>
      match temp with
      | None => Some None
      | Some t =>
          if decide (t + seg_size (rd m t) = seg) then Some (Some t)
          else find_prev fuel' m seg (next (rd m t))
      end
  end.

Definition region_end (s : state) : Z := default 0 (base_address s) + total_region s.

(** [merge_adjacent], first half: absorb the address successor when it lies
    inside the region and is free. *)
Definition merge_forward (seg : Z) (s : state) : state :=
  let next_seg := seg + seg_size (rd (mem s) seg) in
  if (next_seg <? region_end s) && (in_use (rd (mem s) next_seg) =? 0) then
    let s' := remove_from_free_list next_seg s in
    with_mem s' (set_seg_size seg
      (int_add (seg_size (rd (mem s') seg)) (seg_size (rd (mem s') next_seg))) (mem s'))
  else s.

(** [merge_adjacent], second half: look for a free segment that ends at [seg]
    and let it absorb [seg]. *)
Definition merge_backward (fuel : nat) (seg : Z) (s1 : state) : option (Z * state) :=
  match find_prev fuel (mem s1) seg (free_list_head s1) with
  | None => None
  | Some None => Some (seg, s1)
  | Some (Some prev_seg) =>
      let s2 := remove_from_free_list prev_seg s1 in
      let s3 := remove_from_free_list seg s2 in
      let s4 := with_mem s3 (set_seg_size prev_seg
        (int_add (seg_size (rd (mem s3) prev_seg)) (seg_size (rd (mem s3) seg))) (mem s3)) in
      match add_to_free_list fuel prev_seg s4 with
      | None => None
      | Some s5 => Some (prev_seg, s5)
      end
  end.

Definition merge_adjacent (fuel : nat) (seg : Z) (s : state) : option (Z * state) :=
  merge_backward fuel seg (merge_forward seg s).

(** What the operating system does for [my_init]: [open] fails, [mmap]
    fails, or the region is mapped. *)
Inductive os_outcome : Type := OpenFails | MmapFails | Mapped.

(** [MAP_FAILED] is the pointer with all bits set, the value -1. *)
Definition MAP_FAILED : Z := -1.

(** [my_init].  The result of [mmap] is stored in [base_address] before it is
    tested.  A new mapping is a fresh zero-filled block whose first byte is
    offset 0. *)
Definition my_init (region_size : Z) (os : os_outcome) (s : state) : Z * state :=
  let page_sz := 4096 in
  let adjusted := align_value region_size page_sz in
  match os with
  | OpenFails => (-1, s)
  | MmapFails =>
      (-1, State (Some MAP_FAILED) (free_list_head s) (total_region s) (mem s))
  | Mapped =>
      let initial_seg := 0 in
      (0, State (Some 0) (Some initial_seg) adjusted
            (wr ∅ initial_seg (MemSeg adjusted 0 None None)))
  end.

Definition failed : Malloc_Status := MallocStatus 0 (-1) (-1).

Definition smalloc (fuel : nat) (payload_size : Z) (s : state)
    : option (option Z * Malloc_Status * state) :=
  match base_address s with
  | None => Some (None, failed, s)
  | Some base =>
      let total_required := align_value (int_add hdr_size payload_size) 8 in
      match search_for_fit fuel s total_required with
      | None => None
      | Some (None, _) => Some (None, failed, s)
      | Some (Some target, step_counter) =>
          let remaining_space := int_sub (seg_size (rd (mem s) target)) total_required in
          let s1 := remove_from_free_list target s in
          let split :=
            if hdr_size <=? remaining_space then
              let free_seg := target + total_required in
              let m1 := wr (mem s1) free_seg (MemSeg remaining_space 0 None None) in
              let m2 := set_seg_size target total_required m1 in
              add_to_free_list fuel free_seg (with_mem s1 m2)
            else Some s1 in
          match split with
          | None => None
          | Some s2 =>
              let s3 := with_mem s2 (set_in_use target 1 (mem s2)) in
              let usable_mem := target + hdr_size in
              Some (Some usable_mem, MallocStatus 1 (usable_mem - base) step_counter, s3)
          end
      end
  end.

Definition sfree (fuel : nat) (ptr : option Z) (s : state) : option state :=
  match ptr, base_address s with
  | None, _ | _, None => Some s
  | Some p, Some _ =>
      let seg := p - hdr_size in
      if in_use (rd (mem s) seg) =? 0 then Some s
      else
        match add_to_free_list fuel seg s with
        | None => None
        | Some s1 =>
            match merge_adjacent fuel seg s1 with
            | None => None
            | Some (_, s2) => Some s2
            end
        end
  end.

(** ** Machine integer facts *)

Lemma wrap_int_id (x : Z) : -2147483648 <= x <= int_max -> wrap_int x = x.
Proof.
  unfold wrap_int, int_max. intros H.
  rewrite Z.mod_small; lia.
Qed.

Lemma align_value_spec (n k : Z) :
  0 < k -> 0 <= n -> n + k <= int_max ->
  align_value n k = (n + k - 1) / k * k.
Proof.
  intros Hk Hn Hmax. unfold align_value, int_mul, int_div, int_sub, int_add.
  assert (Hq : 0 <= (n + k - 1) / k) by (apply Z.div_pos; lia).
  assert (Hle : (n + k - 1) / k * k <= n + k - 1).
  { rewrite Z.mul_comm. apply Z.mul_div_le. lia. }
  assert (Hq' : (n + k - 1) / k <= (n + k - 1) / k * k) by nia.
  unfold int_max in *.
  rewrite (wrap_int_id (n + k)) by (unfold int_max; lia).
  rewrite (wrap_int_id (n + k - 1)) by (unfold int_max; lia).
  rewrite Z.quot_div_nonneg by lia.
  rewrite (wrap_int_id ((n + k - 1) / k)) by (unfold int_max; lia).
  rewrite wrap_int_id by (unfold int_max; lia).
  reflexivity.
Qed.

Lemma align_value_bounds (n k : Z) :
  0 < k -> 0 <= n -> n + k <= int_max ->
  n <= align_value n k < n + k /\ align_value n k mod k = 0.
Proof.
  intros Hk Hn Hmax. rewrite align_value_spec by assumption.
  split.
  - pose proof (Z.div_mod (n + k - 1) k ltac:(lia)) as Hdm.
    pose proof (Z.mod_pos_bound (n + k - 1) k Hk) as Hb. lia.
  - apply Z.mod_mul. lia.
Qed.

Lemma mod8_add (x y : Z) : x mod 8 = 0 -> y mod 8 = 0 -> (x + y) mod 8 = 0.
Proof. intros Hx Hy. rewrite Z.add_mod, Hx, Hy by lia. done. Qed.

Lemma mod8_sub (x y : Z) : x mod 8 = 0 -> y mod 8 = 0 -> (x - y) mod 8 = 0.
Proof. intros Hx Hy. rewrite Zminus_mod, Hx, Hy. done. Qed.

(** A payload size for which [hdr_size + payload_size + 7] does not overflow. *)
Definition payload_ok (n : Z) : Prop := 0 <= n <= int_max - hdr_size - 8.

Definition required (n : Z) : Z := align_value (int_add hdr_size n) 8.

Lemma required_bounds (n : Z) :
  payload_ok n ->
  hdr_size + n <= required n < hdr_size + n + 8 /\ required n mod 8 = 0.
Proof.
  unfold payload_ok, required, int_add, hdr_size, int_max. intros H.
  rewrite wrap_int_id by (unfold int_max; lia).
  apply align_value_bounds; unfold int_max; lia.
Qed.

(** ** Reading back what was written *)

Lemma rd_wr (m : gmap Z mem_seg) (a b : Z) (h : mem_seg) :
  rd (wr m a h) b = if decide (b = a) then h else rd m b.
Proof.
  unfold rd, wr. case_decide as E.
  - subst. by rewrite lookup_insert_eq.
  - by rewrite lookup_insert_ne.
Qed.

Ltac field_lemma :=
  intros; unfold set_seg_size, set_in_use, set_next, set_prev;
  rewrite rd_wr; case_decide; subst; reflexivity.

Section Fields.
Context (m : gmap Z mem_seg) (a b : Z).

Lemma size_set_size v : seg_size (rd (set_seg_size a v m) b) = if decide (b = a) then v else seg_size (rd m b).
Proof. field_lemma. Qed.
Lemma size_set_use v : seg_size (rd (set_in_use a v m) b) = seg_size (rd m b).
Proof. field_lemma. Qed.
Lemma size_set_next v : seg_size (rd (set_next a v m) b) = seg_size (rd m b).
Proof. field_lemma. Qed.
Lemma size_set_prev v : seg_size (rd (set_prev a v m) b) = seg_size (rd m b).
Proof. field_lemma. Qed.

Lemma use_set_size v : in_use (rd (set_seg_size a v m) b) = in_use (rd m b).
Proof. field_lemma. Qed.
Lemma use_set_use v : in_use (rd (set_in_use a v m) b) = if decide (b = a) then v else in_use (rd m b).
Proof. field_lemma. Qed.
Lemma use_set_next v : in_use (rd (set_next a v m) b) = in_use (rd m b).
Proof. field_lemma. Qed.
Lemma use_set_prev v : in_use (rd (set_prev a v m) b) = in_use (rd m b).
Proof. field_lemma. Qed.

Lemma next_set_size v : next (rd (set_seg_size a v m) b) = next (rd m b).
Proof. field_lemma. Qed.
Lemma next_set_use v : next (rd (set_in_use a v m) b) = next (rd m b).
Proof. field_lemma. Qed.
Lemma next_set_next v : next (rd (set_next a v m) b) = if decide (b = a) then v else next (rd m b).
Proof. field_lemma. Qed.
Lemma next_set_prev v : next (rd (set_prev a v m) b) = next (rd m b).
Proof. field_lemma. Qed.

Lemma prev_set_size v : prev (rd (set_seg_size a v m) b) = prev (rd m b).
Proof. field_lemma. Qed.
Lemma prev_set_use v : prev (rd (set_in_use a v m) b) = prev (rd m b).
Proof. field_lemma. Qed.
Lemma prev_set_next v : prev (rd (set_next a v m) b) = prev (rd m b).
Proof. field_lemma. Qed.
Lemma prev_set_prev v : prev (rd (set_prev a v m) b) = if decide (b = a) then v else prev (rd m b).
Proof. field_lemma. Qed.
End Fields.

Create Rewrite HintDb fields.
#[global] Hint Rewrite
  size_set_size size_set_use size_set_next size_set_prev
  use_set_size use_set_use use_set_next use_set_prev
  next_set_size next_set_use next_set_next next_set_prev
  prev_set_size prev_set_use prev_set_next prev_set_prev rd_wr : fields.

Ltac fields := autorewrite with fields in *.
Ltac cases := repeat case_decide; subst; simpl in *; try lia; try congruence; try done.
Ltac ar := unfold hdr_size, payload_ok, int_max in *; lia.
Ltac casesa :=
  unfold hdr_size, payload_ok, int_max in *; repeat case_decide; simplify_eq; cases.
Ltac use_same :=
  repeat match goal with
  | H : forall b, seg_size (rd (mem ?s) b) = _ |- context [seg_size (rd (mem ?s) _)] =>
      rewrite H
  | H : forall b, in_use (rd (mem ?s) b) = _ |- context [in_use (rd (mem ?s) _)] =>
      rewrite H
  end.
Ltac memsolve :=
  repeat (progress (fields; use_same; simpl; repeat case_decide; simpl)); casesa.

(** ** Doubly linked list segments

    [dll m p F q]: the headers at the addresses [F], in this order, are
    linked through [next] and [prev]; [p] is the [prev] of the first one and
    [q] the [next] of the last one. *)

Definition hd_or (F : list Z) (q : option Z) : option Z :=
  match F with [] => q | b :: _ => Some b end.

Fixpoint last_or (F : list Z) (p : option Z) : option Z :=
  match F with [] => p | a :: F' => last_or F' (Some a) end.

Fixpoint dll (m : gmap Z mem_seg) (p : option Z) (F : list Z) (q : option Z) : Prop :=
  match F with
  | [] => True
  | a :: F' => prev (rd m a) = p /\ next (rd m a) = hd_or F' q /\ dll m (Some a) F' q
  end.

(** Strictly ascending addresses. *)
Fixpoint ssorted (F : list Z) : Prop :=
  match F with
  | [] => True
  | a :: F' => (forall b, b ∈ F' -> a < b) /\ ssorted F'
  end.

Lemma hd_or_app F1 F2 q : hd_or (F1 ++ F2) q = hd_or F1 (hd_or F2 q).
Proof. by destruct F1. Qed.

Lemma last_or_app F1 F2 p : last_or (F1 ++ F2) p = last_or F2 (last_or F1 p).
Proof. revert p. induction F1 as [|a F1 IH]; intros p; simpl; [done | apply IH]. Qed.

Lemma dll_app m p F1 F2 q :
  dll m p (F1 ++ F2) q <-> dll m p F1 (hd_or F2 q) /\ dll m (last_or F1 p) F2 q.
Proof.
  revert p. induction F1 as [|a F1 IH]; intros p; simpl.
  - tauto.
  - rewrite IH, hd_or_app. tauto.
Qed.

Lemma dll_frame m m' p F q :
  (forall x, x ∈ F -> next (rd m' x) = next (rd m x) /\ prev (rd m' x) = prev (rd m x)) ->
  dll m p F q -> dll m' p F q.
Proof.
  revert p. induction F as [|a F IH]; intros p Hfr; simpl; [done |].
  intros (Hp & Hn & Hd).
  destruct (Hfr a) as [-> ->]; [left |].
  repeat split; try done. apply IH; [|done].
  intros x Hx. apply Hfr. by right.
Qed.

Lemma ssorted_app F1 F2 :
  ssorted (F1 ++ F2) <->
  ssorted F1 /\ ssorted F2 /\ (forall x y, x ∈ F1 -> y ∈ F2 -> x < y).
Proof.
  induction F1 as [|a F1 IH]; simpl.
  - split; [intros H; repeat split; [done | intros x y Hx; inversion Hx] | tauto].
  - rewrite IH. split.
    + intros (Ha & H1 & H2 & H12). repeat split; try done.
      * intros b Hb. apply Ha. apply elem_of_app. by left.
      * intros x y Hx Hy. apply elem_of_cons in Hx as [-> | Hx].
        -- apply Ha. apply elem_of_app. by right.
        -- by apply H12.
    + intros ((Ha & H1) & H2 & H12). repeat split; try done.
      * intros b Hb. apply elem_of_app in Hb as [Hb | Hb]; [by apply Ha |].
        apply H12; [left | done].
      * intros x y Hx Hy. apply H12; [by right | done].
Qed.

(** ** The free list as a list of addresses *)

Definition flist (s : state) (F : list Z) : Prop :=
  free_list_head s = head F /\ dll (mem s) None F None.

(** What a list operation leaves alone: the region's globals, every size, and
    every [in_use] flag except possibly the one at [a], which becomes [u]. *)
Definition same_but_use (s s' : state) (a : option Z) : Prop :=
  base_address s' = base_address s /\
  total_region s' = total_region s /\
  (forall b, seg_size (rd (mem s') b) = seg_size (rd (mem s) b)) /\
  (forall b, in_use (rd (mem s') b) =
             if decide (Some b = a) then 0 else in_use (rd (mem s) b)).

Lemma snoc_cases {A} (l : list A) : l = [] \/ exists l' x, l = l' ++ [x].
Proof.
  induction l as [|a l IH]; [by left | right].
  destruct IH as [-> | (l' & x & ->)].
  - by exists [], a.
  - by exists (a :: l'), x.
Qed.

Lemma head_snoc_cons (G : list Z) (x y : Z) (F : list Z) :
  exists h, head (G ++ x :: F) = Some h /\ head (G ++ x :: y :: F) = Some h /\
            (h = x \/ h ∈ G).
Proof.
  destruct G as [|g G]; simpl.
  - exists x. auto.
  - exists g. repeat split; try done. right. left.
Qed.

Lemma remove_head_spec s a F2 :
  ssorted (a :: F2) -> flist s (a :: F2) ->
  flist (remove_from_free_list a s) F2 /\
  same_but_use s (remove_from_free_list a s) None.
Proof.
  intros [Ha Hs2] [Hh (Hp & Hn & Hd)]. simpl in Hh.
  unfold remove_from_free_list. rewrite Hh.
  rewrite decide_True by done. rewrite Hn.
  destruct F2 as [|n F2]; simpl in *.
  - split; [done |]. repeat split; simpl; try done; intros b; fields; cases.
  - destruct Hd as (Hpn & Hnn & Hd). destruct Hs2 as [Hn2 Hs2].
    assert (a < n) by (apply Ha; left).
    split; [split; [done |] |].
    + simpl. fields. repeat split; [cases | cases |].
      eapply dll_frame; [|exact Hd]. intros x Hx.
      assert (n < x) by (by apply Hn2).
      fields. cases.
    + repeat split; simpl; try done; intros b; fields; cases.
Qed.

Lemma remove_inner_spec s G pr a F2 :
  ssorted (G ++ pr :: a :: F2) -> flist s (G ++ pr :: a :: F2) ->
  flist (remove_from_free_list a s) (G ++ pr :: F2) /\
  same_but_use s (remove_from_free_list a s) None.
Proof.
  intros Hs [Hh Hd].
  apply ssorted_app in Hs as (HsG & (Hpr & Ha & HsF) & HG).
  apply dll_app in Hd as (HdG & Hppr & Hnpr & Hpa & Hna & HdF). simpl in Hnpr.
  assert (pr < a) by (apply Hpr; left).
  destruct (head_snoc_cons G pr a F2) as (h & Hh1 & Hh2 & Hhin).
  rewrite Hh2 in Hh.
  assert (h <> a).
  { destruct Hhin as [-> | Hin]; [lia |].
    specialize (HG h a Hin ltac:(right; left)). lia. }
  unfold remove_from_free_list. rewrite Hh.
  rewrite decide_False by congruence.
  rewrite Hpa, Hna. fields. rewrite decide_False by lia. rewrite Hna, Hpa.
  assert (HframeG : forall m', (forall x, x ∈ G ->
             next (rd m' x) = next (rd (mem s) x) /\ prev (rd m' x) = prev (rd (mem s) x)) ->
           dll m' None G (Some pr)).
  { intros m' Hm'. eapply dll_frame; [exact Hm' | exact HdG]. }
  destruct F2 as [|n F2]; simpl in *.
  - split; [split; [by rewrite Hh1 |] |].
    + simpl. apply dll_app. split.
      * apply HframeG. intros x Hx.
        specialize (HG x pr Hx ltac:(left)). fields. cases.
      * simpl. fields. repeat split; cases.
    + repeat split; simpl; try done; intros b; fields; cases.
  - destruct HdF as (Hpn & Hnn & HdF). destruct HsF as [Hn2 HsF].
    assert (a < n) by (apply Ha; left).
    split; [split; [by rewrite Hh1 |] |].
    + simpl. apply dll_app. split.
      * apply HframeG. intros x Hx.
        specialize (HG x pr Hx ltac:(left)). fields. cases.
      * simpl. fields. repeat split; [cases | cases | cases | cases |].
        eapply dll_frame; [|exact HdF]. intros x Hx.
        assert (n < x) by (by apply Hn2).
        fields. cases.
    + repeat split; simpl; try done; intros b; fields; cases.
Qed.

Lemma remove_spec s F1 a F2 :
  ssorted (F1 ++ a :: F2) -> flist s (F1 ++ a :: F2) ->
  flist (remove_from_free_list a s) (F1 ++ F2) /\
  same_but_use s (remove_from_free_list a s) None.
Proof.
  destruct (snoc_cases F1) as [-> | (G & pr & ->)]; simpl.
  - apply remove_head_spec.
  - rewrite <- !app_assoc. simpl. apply remove_inner_spec.
Qed.

Lemma last_cons (G : list Z) (n r : Z) : List.last (n :: G) r = List.last G n.
Proof.
  revert n r. induction G as [|g G IH]; intros n r; [done |].
  change (List.last (n :: g :: G) r) with (List.last (g :: G) r).
  by rewrite !IH.
Qed.

#[global] Arguments remove_from_free_list : simpl never.

(** [find_position] started at [r] inside the list stops at the last node
    that lies below [seg]. *)
Lemma find_position_spec m seg q :
  (forall n, q = Some n -> seg < n) ->
  forall G2 r p fuel,
    dll m p (r :: G2) q ->
    (forall x, x ∈ G2 -> x < seg) ->
    (length G2 < fuel)%nat ->
    find_position fuel m seg r = Some (List.last G2 r).
Proof.
  intros Hq. induction G2 as [|n G2 IH]; intros r p fuel Hd Hlt Hf.
  - destruct fuel as [|fuel]; [simpl in Hf; lia |].
    destruct Hd as (_ & Hn & _). simpl in *. rewrite Hn.
    destruct q as [n|]; [|done].
    specialize (Hq n eq_refl).
    destruct (Z.ltb_spec n seg); [lia | done].
  - destruct fuel as [|fuel]; [simpl in Hf; lia |].
    destruct Hd as (_ & Hn & Hd). simpl in Hn.
    cbn [find_position]. rewrite Hn.
    assert (n < seg) by (apply Hlt; left).
    destruct (Z.ltb_spec n seg); [|lia].
    rewrite (IH n (Some r) fuel); try done.
    + by rewrite last_cons.
    + intros x Hx. apply Hlt. by right.
    + simpl in Hf. lia.
Qed.

Lemma last_snoc (G : list Z) (x d : Z) : List.last (G ++ [x]) d = x.
Proof. apply last_last. Qed.

Lemma add_spec fuel s F1 a F2 :
  ssorted (F1 ++ a :: F2) -> flist s (F1 ++ F2) ->
  (length F1 < fuel)%nat ->
  exists s', add_to_free_list fuel a s = Some s' /\
             flist s' (F1 ++ a :: F2) /\ same_but_use s s' (Some a).
Proof.
  intros Hs [Hh Hd] Hf.
  apply ssorted_app in Hs as (Hs1 & (Ha & Hs2) & H12).
  unfold add_to_free_list.
  destruct (snoc_cases F1) as [-> | (G & pr & ->)]; simpl in *.
  - destruct F2 as [|n F2]; simpl in *; rewrite Hh.
    + eexists; split; [done |]. split; [split; [done |] |].
      * simpl. fields. repeat split; cases.
      * repeat split; simpl; try done; intros b; fields; cases.
    + destruct Hd as (Hpn & Hnn & Hd). destruct Hs2 as [Hn2 Hs2].
      assert (a < n) by (apply Ha; left).
      destruct (Z.ltb_spec a n); [|lia].
      eexists; split; [done |]. split; [split; [done |] |].
      * simpl. fields. repeat split; [cases | cases | cases | cases |].
        eapply dll_frame; [|exact Hd]. intros x Hx.
        assert (n < x) by (by apply Hn2).
        fields. cases.
      * repeat split; simpl; try done; intros b; fields; cases.
  - rewrite <- app_assoc in Hh, Hd. simpl in Hh, Hd.
    assert (pr < a) by (apply H12; [apply elem_of_app; right; left | left]).
    apply ssorted_app in Hs1 as (HsG & _ & HG).
    assert (exists h G', G ++ [pr] = h :: G' /\ h < a) as (h & G' & HG' & Hha).
    { destruct G as [|g G]; simpl.
      - by exists pr, [].
      - exists g, (G ++ [pr]). split; [done |]. apply H12; [left | left]. }
    assert (Hh' : free_list_head s = Some h).
    { rewrite Hh. change (pr :: F2) with ([pr] ++ F2). rewrite app_assoc, HG'. done. }
    rewrite Hh'. destruct (Z.ltb_spec a h); [lia |].
    pose proof Hd as Hd0.
    change (pr :: F2) with ([pr] ++ F2) in Hd0. rewrite app_assoc, HG' in Hd0.
    apply dll_app in Hd0 as [Hd0 _].
    assert (Hq : forall n, hd_or F2 None = Some n -> a < n).
    { intros n Hn. destruct F2 as [|n' F2]; simpl in Hn; [done |].
      injection Hn as ->. apply Ha. left. }
    rewrite (find_position_spec (set_in_use a 0 (mem s)) a (hd_or F2 None) Hq G' h None).
    + assert (Hl : List.last G' h = pr).
      { rewrite <- (last_cons G' h h), <- HG'. apply last_snoc. }
      rewrite Hl.
      apply dll_app in Hd as (HdG & Hppr & Hnpr & HdF).
      fields. rewrite decide_False by lia. rewrite Hnpr.
      assert (HframeG : forall m', (forall x, x ∈ G ->
                 next (rd m' x) = next (rd (mem s) x) /\ prev (rd m' x) = prev (rd (mem s) x)) ->
               dll m' None G (Some pr)).
      { intros m' Hm'. eapply dll_frame; [exact Hm' | exact HdG]. }
      eexists; split; [done |].
      assert (Hhd : head (G ++ pr :: a :: F2) = Some h).
      { change (pr :: a :: F2) with ([pr] ++ a :: F2). rewrite app_assoc, HG'. done. }
      rewrite <- app_assoc. simpl.
      destruct F2 as [|n F2]; simpl in *.
      * split; [split; [by rewrite Hhd |] |].
        -- simpl. apply dll_app. split.
           ++ apply HframeG. intros x Hx.
              specialize (HG x pr Hx ltac:(left)). fields. cases.
           ++ simpl. fields. repeat split; cases.
        -- repeat split; simpl; try done; intros b; fields; cases.
      * destruct HdF as (Hpn & Hnn & HdF). destruct Hs2 as [Hn2 Hs2].
        assert (a < n) by (apply Ha; left).
        split; [split; [by rewrite Hhd |] |].
        -- simpl. apply dll_app. split.
           ++ apply HframeG. intros x Hx.
              specialize (HG x pr Hx ltac:(left)). fields. cases.
           ++ simpl. fields. repeat split; [cases | cases | cases | cases | cases | cases |].
              eapply dll_frame; [|exact HdF]. intros x Hx.
              assert (n < x) by (by apply Hn2).
              fields. cases.
        -- repeat split; simpl; try done; intros b; fields; cases.
    + eapply dll_frame; [|exact Hd0]. intros x Hx. fields. done.
    + intros x Hx. apply H12; [|left]. rewrite HG'. by right.
    + assert (length (G ++ [pr]) = length (h :: G')) as Hlen by (by rewrite HG').
      simpl in Hlen. rewrite length_app in Hf, Hlen. simpl in *. lia.
Qed.

#[global] Arguments add_to_free_list : simpl never.

(** [search_for_fit] passes over the nodes that are too small. *)
Lemma search_loop_skip m needed q :
  forall F1 X p fuel k,
    dll m p (F1 ++ X) q ->
    (forall x, x ∈ F1 -> seg_size (rd m x) < needed) ->
    0 <= k -> k + Z.of_nat (length F1) <= int_max ->
    search_loop (length F1 + fuel) m needed (hd_or (F1 ++ X) q) k =
    search_loop fuel m needed (hd_or X q) (k + Z.of_nat (length F1)).
Proof.
  induction F1 as [|a F1 IH]; intros X p fuel k Hd Hsm Hk Hmax.
  - simpl. by rewrite Z.add_0_r.
  - destruct Hd as (_ & Hn & Hd). cbn [length] in Hmax.
    cbn [app hd_or length Nat.add search_loop].
    assert (seg_size (rd m a) < needed) by (apply Hsm; left).
    destruct (Z.leb_spec needed (seg_size (rd m a))); [lia |].
    rewrite Hn. unfold int_add. rewrite wrap_int_id by (unfold int_max in *; lia).
    rewrite (IH X (Some a)); try done; try lia.
    + f_equal. lia.
    + intros x Hx. apply Hsm. by right.
Qed.

Lemma search_loop_found m needed F1 a F2 fuel :
  dll m None (F1 ++ a :: F2) None ->
  (forall x, x ∈ F1 -> seg_size (rd m x) < needed) ->
  needed <= seg_size (rd m a) ->
  Z.of_nat (length F1) <= int_max ->
  (length F1 < fuel)%nat ->
  search_loop fuel m needed (head (F1 ++ a :: F2)) 0 = Some (Some a, Z.of_nat (length F1)).
Proof.
  intros Hd Hsm Hfit Hmax Hf.
  replace fuel with (length F1 + S (fuel - S (length F1)))%nat by lia.
  replace (head (F1 ++ a :: F2)) with (hd_or (F1 ++ a :: F2) None) by (by destruct F1).
  rewrite (search_loop_skip m needed None F1 (a :: F2) None); try done; try lia.
  simpl. destruct (Z.leb_spec needed (seg_size (rd m a))); [done | lia].
Qed.

Lemma search_loop_none m needed F fuel :
  dll m None F None ->
  (forall x, x ∈ F -> seg_size (rd m x) < needed) ->
  Z.of_nat (length F) <= int_max ->
  (length F < fuel)%nat ->
  search_loop fuel m needed (head F) 0 = Some (None, Z.of_nat (length F)).
Proof.
  intros Hd Hsm Hmax Hf.
  replace fuel with (length F + S (fuel - S (length F)))%nat by lia.
  replace (head F) with (hd_or (F ++ []) None) by (rewrite app_nil_r; by destruct F).
  rewrite (search_loop_skip m needed None F [] None); try done; try lia.
  by rewrite app_nil_r.
Qed.

(** The predecessor scan of [merge_adjacent]. *)
Lemma find_prev_skip m seg q :
  forall F1 X p fuel,
    dll m p (F1 ++ X) q ->
    (forall x, x ∈ F1 -> x + seg_size (rd m x) <> seg) ->
    find_prev (length F1 + fuel) m seg (hd_or (F1 ++ X) q) =
    find_prev fuel m seg (hd_or X q).
Proof.
  induction F1 as [|a F1 IH]; intros X p fuel Hd Hne; [done |].
  destruct Hd as (_ & Hn & Hd).
  cbn [app hd_or length Nat.add find_prev].
  rewrite decide_False by (apply Hne; left).
  rewrite Hn. apply (IH X (Some a)); [done |].
  intros x Hx. apply Hne. by right.
Qed.

Lemma find_prev_found m seg F1 t F2 fuel :
  dll m None (F1 ++ t :: F2) None ->
  (forall x, x ∈ F1 -> x + seg_size (rd m x) <> seg) ->
  t + seg_size (rd m t) = seg ->
  (length F1 < fuel)%nat ->
  find_prev fuel m seg (head (F1 ++ t :: F2)) = Some (Some t).
Proof.
  intros Hd Hne Ht Hf.
  replace fuel with (length F1 + S (fuel - S (length F1)))%nat by lia.
  replace (head (F1 ++ t :: F2)) with (hd_or (F1 ++ t :: F2) None) by (by destruct F1).
  rewrite (find_prev_skip m seg None F1 (t :: F2) None); try done.
  simpl. by rewrite decide_True.
Qed.

Lemma find_prev_none m seg F fuel :
  dll m None F None ->
  (forall x, x ∈ F -> x + seg_size (rd m x) <> seg) ->
  (length F < fuel)%nat ->
  find_prev fuel m seg (head F) = Some None.
Proof.
  intros Hd Hne Hf.
  replace fuel with (length F + S (fuel - S (length F)))%nat by lia.
  replace (head F) with (hd_or (F ++ []) None) by (rewrite app_nil_r; by destruct F).
  rewrite (find_prev_skip m seg None F [] None); try done.
  by rewrite app_nil_r.
Qed.

(** ** The segments that tile the region

    An abstract segment records where a header lies, the size stored in it
    and whether it is allocated. *)

Record aseg : Type := ASeg { a_addr : Z; a_size : Z; a_used : bool }.

(** [chain a L e]: the segments [L] lie back to back from [a] to [e]; each
    covers at least its header and has a size that is a multiple of 8. *)
Fixpoint chain (a : Z) (L : list aseg) (e : Z) : Prop :=
  match L with
  | [] => a = e
  | x :: L' =>
      a_addr x = a /\ hdr_size <= a_size x /\ a_size x mod 8 = 0 /\
      chain (a + a_size x) L' e
  end.

Definition agree (m : gmap Z mem_seg) (L : list aseg) : Prop :=
  forall x, x ∈ L ->
    seg_size (rd m (a_addr x)) = a_size x /\
    in_use (rd m (a_addr x)) = if a_used x then 1 else 0.

(** The addresses of the free segments, in address order. *)
Fixpoint frees (L : list aseg) : list Z :=
  match L with
  | [] => []
  | x :: L' => if a_used x then frees L' else a_addr x :: frees L'
  end.

(** No two neighbours are both free. *)
Fixpoint coalesced (L : list aseg) : Prop :=
  match L with
  | [] => True
  | x :: L' =>
      match L' with
      | y :: _ => a_used x = true \/ a_used y = true
      | [] => True
      end /\ coalesced L'
  end.

Fixpoint total_size (L : list aseg) : Z :=
  match L with [] => 0 | x :: L' => a_size x + total_size L' end.

Lemma chain_app a L1 L2 e :
  chain a (L1 ++ L2) e <-> chain a L1 (a + total_size L1) /\ chain (a + total_size L1) L2 e.
Proof.
  revert a. induction L1 as [|x L1 IH]; intros a; simpl.
  - rewrite Z.add_0_r. tauto.
  - rewrite IH, Z.add_assoc. tauto.
Qed.

Lemma chain_total a L e : chain a L e -> e = a + total_size L.
Proof.
  revert a. induction L as [|x L IH]; intros a; simpl.
  - lia.
  - intros (_ & _ & _ & H). apply IH in H. lia.
Qed.

Lemma chain_elem a L e x :
  chain a L e -> x ∈ L ->
  a <= a_addr x /\ a_addr x + a_size x <= e /\ hdr_size <= a_size x /\ a_size x mod 8 = 0.
Proof.
  revert a. induction L as [|y L IH]; intros a Hc Hx; [inversion Hx |].
  destruct Hc as (Ha & Hsz & Hmod & Hc).
  pose proof (chain_total _ _ _ Hc) as He.
  assert (0 <= total_size L).
  { clear -Hc. revert Hc. generalize (a + a_size y). induction L as [|z L IH]; simpl; [lia |].
    intros a0 (_ & Hz & _ & Hc). apply IH in Hc. unfold hdr_size in *. lia. }
  apply elem_of_cons in Hx as [-> | Hx].
  - unfold hdr_size in *. lia.
  - destruct (IH _ Hc Hx) as (? & ? & ? & ?). unfold hdr_size in *. lia.
Qed.

Lemma chain_nonneg a L e : chain a L e -> 0 <= total_size L /\ Z.of_nat (length L) <= total_size L.
Proof.
  revert a. induction L as [|x L IH]; intros a; simpl; [lia |].
  intros (_ & Hsz & _ & Hc). apply IH in Hc. unfold hdr_size in *. lia.
Qed.

Lemma chain_aligned a L e x :
  chain a L e -> a mod 8 = 0 -> x ∈ L -> a_addr x mod 8 = 0.
Proof.
  revert a. induction L as [|y L IH]; intros a Hc Ha Hx; [inversion Hx |].
  destruct Hc as (Hay & _ & Hmod & Hc).
  apply elem_of_cons in Hx as [-> | Hx]; [congruence |].
  apply (IH _ Hc); [|done].
  rewrite Z.add_mod, Ha, Hmod by lia. done.
Qed.

Lemma frees_app L1 L2 : frees (L1 ++ L2) = frees L1 ++ frees L2.
Proof.
  induction L1 as [|x L1 IH]; simpl; [done |].
  destruct (a_used x); simpl; by rewrite IH.
Qed.

Lemma elem_of_frees L y :
  y ∈ frees L <-> exists x, x ∈ L /\ a_used x = false /\ a_addr x = y.
Proof.
  induction L as [|z L IH]; simpl.
  - split; [intros H; inversion H | intros (x & H & _); inversion H].
  - destruct (a_used z) eqn:Hu.
    + rewrite IH. split.
      * intros (x & Hx & ?). exists x. split; [by right | done].
      * intros (x & Hx & Hux & ?). apply elem_of_cons in Hx as [-> | Hx]; [congruence |].
        by exists x.
    + rewrite elem_of_cons, IH. split.
      * intros [-> | (x & Hx & ?)]; [exists z; split; [left | done] |].
        exists x. split; [by right | done].
      * intros (x & Hx & Hux & ?). apply elem_of_cons in Hx as [-> | Hx]; [by left |].
        right. by exists x.
Qed.

Lemma length_frees L : (length (frees L) <= length L)%nat.
Proof. induction L as [|x L IH]; simpl; [lia |]. destruct (a_used x); simpl; lia. Qed.

Lemma frees_sorted a L e : chain a L e -> ssorted (frees L).
Proof.
  revert a. induction L as [|x L IH]; intros a Hc; simpl; [done |].
  pose proof Hc as (Ha & Hsz & _ & Hc').
  destruct (a_used x); [by eapply IH |].
  split; [|by eapply IH].
  intros b Hb. apply elem_of_frees in Hb as (y & Hy & _ & <-).
  destruct (chain_elem _ _ _ _ Hc' Hy) as (? & _). unfold hdr_size in *. lia.
Qed.

Lemma agree_app m L1 L2 : agree m (L1 ++ L2) <-> agree m L1 /\ agree m L2.
Proof.
  unfold agree. split.
  - intros H. split; intros x Hx; apply H, elem_of_app; auto.
  - intros [H1 H2] x Hx. apply elem_of_app in Hx as [Hx | Hx]; auto.
Qed.

Lemma agree_cons m x L :
  agree m (x :: L) <->
  (seg_size (rd m (a_addr x)) = a_size x /\
   in_use (rd m (a_addr x)) = if a_used x then 1 else 0) /\ agree m L.
Proof.
  unfold agree. split.
  - intros H. split; [apply H; left |]. intros y Hy. apply H. by right.
  - intros [Hx H] y Hy. apply elem_of_cons in Hy as [-> | Hy]; auto.
Qed.

(** Where the neighbours of a segment lie. *)
Lemma chain_split a0 L1 x L2 e :
  chain a0 (L1 ++ x :: L2) e ->
  (forall y, y ∈ L1 -> a0 <= a_addr y /\ a_addr y + a_size y <= a_addr x /\ hdr_size <= a_size y) /\
  (forall y, y ∈ L2 -> a_addr x + a_size x <= a_addr y /\ a_addr y + a_size y <= e /\
                       hdr_size <= a_size y) /\
  a0 <= a_addr x /\ a_addr x + a_size x <= e /\ hdr_size <= a_size x /\
  a_size x mod 8 = 0 /\ a_addr x = a0 + total_size L1.
Proof.
  intros Hc. apply chain_app in Hc as [Hc1 (Hx & Hsz & Hmod & Hc2)].
  pose proof (chain_nonneg _ _ _ Hc1) as [Hn1 _].
  pose proof (chain_nonneg _ _ _ Hc2) as [Hn2 _].
  pose proof (chain_total _ _ _ Hc2) as He.
  repeat split; try lia.
  - destruct (chain_elem _ _ _ _ Hc1 H) as (? & ? & ? & ?). lia.
  - destruct (chain_elem _ _ _ _ Hc1 H) as (? & ? & ? & ?). lia.
  - destruct (chain_elem _ _ _ _ Hc1 H) as (? & ? & ? & ?). lia.
  - destruct (chain_elem _ _ _ _ Hc2 H) as (? & ? & ? & ?). lia.
  - destruct (chain_elem _ _ _ _ Hc2 H) as (? & ? & ? & ?). lia.
  - destruct (chain_elem _ _ _ _ Hc2 H) as (? & ? & ? & ?). lia.
Qed.

(** Neighbour flags at the two ends of a list. *)
Fixpoint lastu (L : list aseg) : bool :=
  match L with
  | [] => true
  | x :: L' => match L' with [] => a_used x | _ => lastu L' end
  end.

Definition headu (L : list aseg) : bool :=
  match L with [] => true | x :: _ => a_used x end.

Lemma lastu_snoc L y : lastu (L ++ [y]) = a_used y.
Proof.
  induction L as [|x L IH]; simpl; [done |].
  destruct (L ++ [y]) eqn:E; [by destruct L | done].
Qed.

Lemma coalesced_cons x L :
  coalesced (x :: L) <-> (a_used x = true \/ headu L = true) /\ coalesced L.
Proof. destruct L; simpl; tauto. Qed.

Lemma coalesced_app_iff L1 L2 :
  coalesced (L1 ++ L2) <->
  coalesced L1 /\ coalesced L2 /\ (lastu L1 = true \/ headu L2 = true).
Proof.
  induction L1 as [|x L1 IH].
  - simpl. tauto.
  - change ((x :: L1) ++ L2) with (x :: (L1 ++ L2)).
    rewrite !coalesced_cons, IH.
    destruct L1 as [|y L1]; [destruct L2 |]; simpl; tauto.
Qed.

#[global] Arguments coalesced : simpl never.

(** ** The representation invariant *)

(** [Wf s L]: the headers in memory are the segments [L], which tile the
    region, and the free list links exactly the free ones in address order. *)
Record Wf (s : state) (L : list aseg) : Prop := {
  wf_base : base_address s = Some 0;
  wf_total : 0 < total_region s <= int_max;
  wf_chain : chain 0 L (total_region s);
  wf_agree : agree (mem s) L;
  wf_flist : flist s (frees L)
}.

(** [Rep s L live]: moreover no two neighbours are free, and the handles that
    were handed out and not released are the payloads of the allocated
    segments. *)
Record Rep (s : state) (L : list aseg) (live : gset Z) : Prop := {
  rep_wf : Wf s L;
  rep_coal : coalesced L;
  rep_live : forall p, p ∈ live <-> exists sz, ASeg (p - hdr_size) sz true ∈ L
}.

Definition enough (s : state) (fuel : nat) : Prop :=
  (Z.to_nat (total_region s) < fuel)%nat.

Lemma wf_length s L : Wf s L -> Z.of_nat (length L) <= total_region s.
Proof.
  intros H. pose proof (wf_chain _ _ H) as Hc.
  pose proof (chain_total _ _ _ Hc). pose proof (chain_nonneg _ _ _ Hc). lia.
Qed.

Lemma wf_fuel s L fuel : Wf s L -> enough s fuel -> (length L < fuel)%nat.
Proof. intros H Hf. pose proof (wf_length _ _ H). unfold enough in Hf. lia. Qed.

(** ** Allocation *)

(** The segments after a successful [smalloc] that chose the free segment
    [a] of size [S] for a request of [R] bytes. *)
Definition alloc_abs (R : Z) (L1 : list aseg) (a S : Z) (L2 : list aseg) : list aseg :=
  if hdr_size <=? S - R
  then L1 ++ ASeg a R true :: ASeg (a + R) (S - R) false :: L2
  else L1 ++ ASeg a S true :: L2.

Lemma frees_small m L R :
  agree m L ->
  (forall x, x ∈ L -> a_used x = false -> a_size x < R) ->
  forall y, y ∈ frees L -> seg_size (rd m y) < R.
Proof.
  intros Hag Hsm y Hy. apply elem_of_frees in Hy as (x & Hx & Hu & <-).
  destruct (Hag x Hx) as [-> _]. by apply Hsm.
Qed.

Lemma smalloc_wf fuel s L1 a S L2 n :
  Wf s (L1 ++ ASeg a S false :: L2) ->
  (forall x, x ∈ L1 -> a_used x = false -> a_size x < required n) ->
  payload_ok n -> required n <= S -> enough s fuel ->
  exists s',
    smalloc fuel n s =
      Some (Some (a + hdr_size),
            MallocStatus 1 (a + hdr_size) (Z.of_nat (length (frees L1))), s') /\
    Wf s' (alloc_abs (required n) L1 a S L2) /\
    total_region s' = total_region s.
Proof.
  intros HW Hsm Hn HRS Hf.
  pose proof (wf_fuel _ _ _ HW Hf) as Hlen.
  pose proof (wf_length _ _ HW) as HlenZ.
  destruct HW as [Hbase Htot Hch Hag [Hh Hd]].
  destruct (required_bounds n Hn) as [HR Hmod].
  set (R := required n) in *.
  destruct (chain_split _ _ _ _ _ Hch) as (H1 & H2 & Ha0 & Hae & _ & HSmod & _).
  simpl in H1, H2, Ha0, Hae, HSmod.
  apply agree_app in Hag as [Hag1 Hag]. apply agree_cons in Hag as [[HaS Hau] Hag2].
  simpl in HaS, Hau.
  rewrite frees_app in Hh, Hd. simpl in Hh, Hd.
  assert (Hs : ssorted (frees L1 ++ a :: frees L2)).
  { pose proof (frees_sorted _ _ _ Hch) as Hs. by rewrite frees_app in Hs. }
  assert (Hl1 : (length (frees L1) <= length L1)%nat) by apply length_frees.
  rewrite length_app in Hlen, HlenZ. simpl in Hlen, HlenZ.
  unfold smalloc. rewrite Hbase. fold (required n). fold R.
  unfold search_for_fit. rewrite Hh.
  rewrite (search_loop_found _ R (frees L1) a (frees L2)); try done; try lia.
  2:{ by apply frees_small. }
  rewrite HaS. unfold int_sub.
  rewrite wrap_int_id by ar.
  pose proof (remove_spec s (frees L1) a (frees L2) Hs (conj Hh Hd)) as Hrm.
  remember (remove_from_free_list a s) as s1 eqn:Es1. clear Es1.
  destruct Hrm as [[Hh1 Hd1] (Hb1 & Ht1 & Hsz1 & Hu1)].
  assert (HF1 : forall x, x ∈ frees L1 -> x < a).
  { intros x Hx. apply elem_of_frees in Hx as (y & Hy & _ & <-).
    destruct (H1 y Hy) as (_ & ? & ?). ar. }
  assert (HF2 : forall x, x ∈ frees L2 -> a + S <= x).
  { intros x Hx. apply elem_of_frees in Hx as (y & Hy & _ & <-).
    destruct (H2 y Hy) as (? & _). lia. }
  unfold alloc_abs.
  destruct (Z.leb_spec hdr_size (S - R)) as [Hsplit | Hnosplit].
  - set (s1' := with_mem s1 _).
    assert (Hs' : ssorted (frees L1 ++ (a + R) :: frees L2)).
    { apply ssorted_app in Hs as (Hs1 & (_ & Hs2) & _).
      apply ssorted_app. repeat split; try done.
      - intros b Hb. specialize (HF2 b Hb). ar.
      - intros x y Hx Hy. specialize (HF1 x Hx).
        apply elem_of_cons in Hy as [-> | Hy]; [ar |].
        specialize (HF2 y Hy). ar. }
    assert (Hfl' : flist s1' (frees L1 ++ frees L2)).
    { split; [done |]. simpl.
      eapply dll_frame; [|exact Hd1]. intros x Hx. fields.
      apply elem_of_app in Hx as [Hx | Hx];
        [specialize (HF1 x Hx) | specialize (HF2 x Hx)];
        casesa. }
    destruct (add_spec fuel s1' (frees L1) (a + R) (frees L2) Hs' Hfl' ltac:(lia))
      as (s2 & -> & [Hh2 Hd2] & (Hb2 & Ht2 & Hsz2 & Hu2)).
    subst s1'. simpl in Hb2, Ht2, Hsz2, Hu2.
    eexists. split; [by rewrite Z.sub_0_r |]. split; [|simpl; congruence].
    constructor; simpl.
    + congruence.
    + rewrite Ht2. simpl. by rewrite Ht1.
    + rewrite Ht2. simpl. rewrite Ht1.
      apply chain_app in Hch as [Hc1 (Hx & Hsz & Hm & Hc2)]. simpl in *.
      apply chain_app. split; [done |]. simpl.
      repeat split; try ar.
      * by apply mod8_sub.
      * replace (0 + total_size L1 + R + (S - R)) with (0 + total_size L1 + S) by lia. done.
    + apply agree_app. split; [|apply agree_cons; split; [|apply agree_cons; split]]; simpl.
      * intros x Hx. destruct (H1 x Hx) as (_ & ? & ?). destruct (Hag1 x Hx) as [<- <-].
        memsolve.
      * memsolve.
      * memsolve.
      * intros x Hx. destruct (H2 x Hx) as (? & _ & ?). destruct (Hag2 x Hx) as [<- <-].
        memsolve.
    + rewrite frees_app. simpl. split; [done |]. simpl.
      eapply dll_frame; [|exact Hd2]. intros x Hx. by fields.
  - eexists. split; [by rewrite Z.sub_0_r |]. split; [|simpl; congruence].
    constructor; simpl.
    + congruence.
    + by rewrite Ht1.
    + rewrite Ht1.
      apply chain_app in Hch as [Hc1 (Hx & Hsz & Hm & Hc2)]. simpl in *.
      apply chain_app. split; [done |]. simpl. repeat split; try done.
    + apply agree_app. split; [|apply agree_cons; split]; simpl.
      * intros x Hx. destruct (H1 x Hx) as (_ & ? & ?). destruct (Hag1 x Hx) as [<- <-].
        memsolve.
      * memsolve.
      * intros x Hx. destruct (H2 x Hx) as (? & _ & ?). destruct (Hag2 x Hx) as [<- <-].
        memsolve.
    + rewrite frees_app. simpl. split; [done |]. simpl.
      eapply dll_frame; [|exact Hd1]. intros x Hx. by fields.
Qed.

Lemma smalloc_none fuel s L n :
  Wf s L ->
  (forall x, x ∈ L -> a_used x = false -> a_size x < required n) ->
  enough s fuel ->
  smalloc fuel n s = Some (None, failed, s).
Proof.
  intros HW Hsm Hf.
  pose proof (wf_fuel _ _ _ HW Hf) as Hlen.
  pose proof (wf_length _ _ HW) as HlenZ.
  destruct HW as [Hbase Htot Hch Hag [Hh Hd]].
  pose proof (length_frees L) as Hl.
  unfold smalloc. rewrite Hbase. fold (required n).
  unfold search_for_fit. rewrite Hh.
  rewrite (search_loop_none _ (required n) (frees L)); try done; try lia.
  by apply frees_small.
Qed.

(** First fit on the abstract list: either no free segment is large enough,
    or the list splits at the first free segment that is. *)
Lemma first_fit_cases (L : list aseg) (R : Z) :
  (forall x, x ∈ L -> a_used x = false -> a_size x < R) \/
  exists L1 a S L2,
    L = L1 ++ ASeg a S false :: L2 /\ R <= S /\
    (forall x, x ∈ L1 -> a_used x = false -> a_size x < R).
Proof.
  induction L as [|[a S u] L IH].
  - left. intros x Hx. inversion Hx.
  - destruct u.
    + destruct IH as [IH | (L1 & a' & S' & L2 & -> & HR & Hsm)].
      * left. intros x Hx Hu. apply elem_of_cons in Hx as [-> | Hx]; [done | by apply IH].
      * right. exists (ASeg a S true :: L1), a', S', L2. repeat split; try done.
        intros x Hx Hu. apply elem_of_cons in Hx as [-> | Hx]; [done | by apply Hsm].
    + destruct (Z.le_gt_cases R S) as [HR | HR].
      * right. exists [], a, S, L. repeat split; try done. intros x Hx. inversion Hx.
      * destruct IH as [IH | (L1 & a' & S' & L2 & -> & HR' & Hsm)].
        -- left. intros x Hx Hu.
           apply elem_of_cons in Hx as [-> | Hx]; [simpl; lia | by apply IH].
        -- right. exists (ASeg a S false :: L1), a', S', L2. repeat split; try done.
           intros x Hx Hu. apply elem_of_cons in Hx as [-> | Hx]; [simpl; lia | by apply Hsm].
Qed.

(** ** Release *)

Definition merge_next (S : Z) (L2 : list aseg) : Z * list aseg :=
  match L2 with
  | y :: L2' => if a_used y then (S, L2) else (S + a_size y, L2')
  | [] => (S, [])
  end.

Fixpoint merge_prev (L1 : list aseg) (a S : Z) (L2 : list aseg) : list aseg :=
  match L1 with
  | [] => ASeg a S false :: L2
  | y :: L1' =>
      match L1' with
      | [] => if a_used y then y :: ASeg a S false :: L2
              else ASeg (a_addr y) (a_size y + S) false :: L2
      | _ => y :: merge_prev L1' a S L2
      end
  end.

(** The segments after [sfree] released the allocated segment [a] of size
    [S]. *)
Definition free_abs (L1 : list aseg) (a S : Z) (L2 : list aseg) : list aseg :=
  merge_prev L1 a (fst (merge_next S L2)) (snd (merge_next S L2)).

Lemma merge_prev_snoc G y a S L2 :
  merge_prev (G ++ [y]) a S L2 =
  if a_used y then G ++ y :: ASeg a S false :: L2
  else G ++ ASeg (a_addr y) (a_size y + S) false :: L2.
Proof.
  induction G as [|g G IH]; simpl; [by destruct (a_used y) |].
  rewrite IH. destruct (G ++ [y]) eqn:E; [by destruct G |].
  by destruct (a_used y).
Qed.

Definition same_use (s s' : state) : Prop :=
  total_region s' = total_region s /\
  forall b, in_use (rd (mem s') b) = in_use (rd (mem s) b).

Lemma merge_forward_wf s L1 a S L2 :
  Wf s (L1 ++ ASeg a S false :: L2) ->
  Wf (merge_forward a s)
     (L1 ++ ASeg a (fst (merge_next S L2)) false :: snd (merge_next S L2)) /\
  same_use s (merge_forward a s).
Proof.
  intros HW. pose proof HW as HW0.
  destruct HW as [Hbase Htot Hch Hag [Hh Hd]].
  destruct (chain_split _ _ _ _ _ Hch) as (H1 & H2 & Ha0 & Hae & HS & HSmod & _).
  simpl in H1, H2, Ha0, Hae, HSmod, HS.
  pose proof Hag as Hag0.
  apply agree_app in Hag as [Hag1 Hag]. apply agree_cons in Hag as [[HaS Hau] Hag2].
  simpl in HaS, Hau.
  unfold merge_forward, region_end. rewrite Hbase, HaS. simpl default.
  destruct L2 as [|[b Sb ub] L2].
  - apply chain_app in Hch as [_ (Hax & _ & _ & Hc2)]. simpl in Hax, Hc2.
    destruct (Z.ltb_spec (a + S) (0 + total_region s)); [lia |]. simpl.
    split; [exact HW0 | done].
  - pose proof Hch as Hch0.
    apply chain_app in Hch as [Hc1 (Hax & _ & _ & Hb & HSb & HSbmod & Hc2)].
    simpl in Hax, Hb, HSb, HSbmod, Hc2, H2, Hag2, Hh, Hd, Hch0.
    assert (b = a + S) as Eb by lia. clear Hb. subst b.
    destruct (H2 _ ltac:(left)) as (_ & Hbe & _). simpl in Hbe.
    apply agree_cons in Hag2 as [[HbS Hbu] Hag2]. simpl in HbS, Hbu.
    destruct (Z.ltb_spec (a + S) (0 + total_region s)); [|ar]. rewrite Hbu.
    destruct ub; cbn -[remove_from_free_list].
    + split; [exact HW0 | done].
    + assert (Hs : ssorted ((frees L1 ++ [a]) ++ (a + S) :: frees L2)).
      { pose proof (frees_sorted _ _ _ Hch0) as Hs.
        rewrite frees_app in Hs. simpl in Hs. by rewrite <- app_assoc. }
      rewrite frees_app in Hh, Hd. simpl in Hh, Hd.
      assert (Hfl : flist s ((frees L1 ++ [a]) ++ (a + S) :: frees L2)).
      { rewrite <- app_assoc. by split. }
      pose proof (remove_spec s _ _ _ Hs Hfl) as Hrm.
      remember (remove_from_free_list (a + S) s) as s1 eqn:Es1. clear Es1.
      destruct Hrm as [[Hh1 Hd1] (Hb1 & Ht1 & Hsz1 & Hu1)].
      rewrite <- app_assoc in Hh1, Hd1. simpl in Hh1, Hd1.
      rewrite !Hsz1, HaS, HbS. unfold int_add. rewrite wrap_int_id by ar.
      split; [|split; [done | intros x; memsolve]].
      constructor; simpl.
      * congruence.
      * by rewrite Ht1.
      * rewrite Ht1. apply chain_app. split; [done |]. simpl.
        repeat split; try ar; [by apply mod8_add |].
        by rewrite Z.add_assoc.
      * apply agree_app. split; [|apply agree_cons; split]; simpl.
        -- intros x Hx. destruct (H1 x Hx) as (_ & ? & ?). destruct (Hag1 x Hx) as [<- <-].
           memsolve.
        -- memsolve.
        -- intros x Hx. destruct (H2 x ltac:(by right)) as (? & _ & ?).
           destruct (Hag2 x Hx) as [<- <-]. simpl in *. memsolve.
      * rewrite frees_app. simpl. split; [done |]. simpl.
        eapply dll_frame; [|exact Hd1]. intros x Hx. by fields.
Qed.

Lemma frees_addr_size m L x :
  agree m L -> x ∈ frees L ->
  exists y, y ∈ L /\ a_addr y = x /\ seg_size (rd m x) = a_size y.
Proof.
  intros Hag Hx. apply elem_of_frees in Hx as (y & Hy & _ & <-).
  exists y. repeat split; try done. by apply Hag.
Qed.

Lemma merge_backward_wf fuel s L1 a S L2 :
  Wf s (L1 ++ ASeg a S false :: L2) -> enough s fuel ->
  exists r s', merge_backward fuel a s = Some (r, s') /\
               Wf s' (merge_prev L1 a S L2) /\ same_use s s'.
Proof.
  intros HW Hf. pose proof HW as HW0.
  pose proof (wf_fuel _ _ _ HW Hf) as Hlen.
  pose proof (length_frees (L1 ++ ASeg a S false :: L2)) as Hlf.
  destruct HW as [Hbase Htot Hch Hag [Hh Hd]].
  destruct (chain_split _ _ _ _ _ Hch) as (H1 & H2 & Ha0 & Hae & HS & HSmod & _).
  simpl in H1, H2, Ha0, Hae, HSmod, HS.
  pose proof (frees_sorted _ _ _ Hch) as Hs.
  pose proof Hag as Hag0.
  apply agree_app in Hag as [Hag1 Hag]. apply agree_cons in Hag as [[HaS Hau] Hag2].
  simpl in HaS, Hau.
  assert (HF2 : forall x, x ∈ a :: frees L2 -> x + seg_size (rd (mem s) x) <> a).
  { intros x Hx. apply elem_of_cons in Hx as [-> | Hx]; [ar |].
    destruct (frees_addr_size _ _ _ Hag2 Hx) as (z & Hz & <- & ->).
    destruct (H2 z Hz) as (? & _ & ?). ar. }
  unfold merge_backward.
  destruct (snoc_cases L1) as [-> | (G & [b Sb ub] & ->)].
  - simpl in *. rewrite Hh.
    rewrite (find_prev_none _ a (a :: frees L2)); try done.
    + exists a, s. split; [done |]. split; [exact HW0 | done].
    + simpl in *. lia.
  - rewrite merge_prev_snoc. simpl a_used. simpl a_addr. simpl a_size.
    rewrite <- app_assoc in Hch, Hs, Hh, Hd, Hlf, Hlen. simpl in Hch, Hs, Hh, Hd, Hlf, Hlen.
    destruct (chain_split _ _ _ _ _ Hch) as (HG & _ & Hb0 & _ & HSb & HSbmod & _).
    simpl in HG, Hb0, HSb, HSbmod.
    pose proof Hch as Hch0.
    apply chain_app in Hch as [HcG (Hbx & _ & _ & Hax & _ & _ & Hc2)].
    simpl in Hbx, Hax, Hc2.
    assert (Hab : a = b + Sb) by lia.
    apply agree_app in Hag1 as [HagG Hagb]. apply agree_cons in Hagb as [[HbS Hbu] _].
    simpl in HbS, Hbu.
    assert (HFG : forall x, x ∈ frees G -> x + seg_size (rd (mem s) x) <> a).
    { intros x Hx. destruct (frees_addr_size _ _ _ HagG Hx) as (z & Hz & <- & ->).
      destruct (HG z Hz) as (_ & ? & _). ar. }
    assert (HFGlt : forall x, x ∈ frees G -> x < b).
    { intros x Hx. destruct (frees_addr_size _ _ _ HagG Hx) as (z & Hz & <- & _).
      destruct (HG z Hz) as (_ & ? & ?). ar. }
    assert (HF2lt : forall x, x ∈ frees L2 -> a + S <= x).
    { intros x Hx. destruct (frees_addr_size _ _ _ Hag2 Hx) as (z & Hz & <- & _).
      destruct (H2 z Hz) as (? & _). lia. }
    rewrite !frees_app in Hs, Hh, Hd, Hlf. simpl in Hs, Hh, Hd, Hlf.
    rewrite !length_app in Hlen, Hlf. simpl in Hlen, Hlf.
    destruct ub; simpl in Hs, Hh, Hd, Hlf.
    + rewrite Hh.
      rewrite (find_prev_none _ a (frees G ++ a :: frees L2)); try done.
      * exists a, s. split; [done |]. split; [|done]. by rewrite <- app_assoc in HW0.
      * intros x Hx. apply elem_of_app in Hx as [Hx | Hx]; auto.
      * rewrite length_app in *. simpl in *. lia.
    + rewrite Hh.
      rewrite (find_prev_found _ a (frees G) b (a :: frees L2)); try done; try lia.
      2:{ rewrite length_app in *. simpl in *. lia. }
      pose proof (remove_spec s _ _ _ Hs (conj Hh Hd)) as Hrm.
      remember (remove_from_free_list b s) as s2 eqn:Es2. clear Es2.
      destruct Hrm as [Hfl2 (Hb2 & Ht2 & Hsz2 & Hu2)].
      assert (Hs2 : ssorted (frees G ++ a :: frees L2)).
      { apply ssorted_app in Hs as (HsG & (_ & Hsa) & Hlt).
        apply ssorted_app. split; [done | split; [done |]].
        intros x y Hx Hy. apply Hlt; [done | by right]. }
      pose proof (remove_spec s2 _ _ _ Hs2 Hfl2) as Hrm.
      remember (remove_from_free_list a s2) as s3 eqn:Es3. clear Es3.
      destruct Hrm as [[Hh3 Hd3] (Hb3 & Ht3 & Hsz3 & Hu3)].
      rewrite !Hsz3, !Hsz2, HbS, HaS. unfold int_add. rewrite wrap_int_id by ar.
      set (s4 := with_mem s3 _).
      assert (Hs4 : ssorted (frees G ++ b :: frees L2)).
      { apply ssorted_app in Hs as (HsG & (_ & _ & HsL2) & Hlt).
        apply ssorted_app. split; [done | split; [split; [|done] |]].
        - intros y Hy. specialize (HF2lt y Hy). ar.
        - intros x y Hx Hy. specialize (HFGlt x Hx).
          apply elem_of_cons in Hy as [-> | Hy]; [done |].
          specialize (HF2lt y Hy). ar. }
      assert (Hfl4 : flist s4 (frees G ++ frees L2)).
      { split; [done |]. simpl.
        eapply dll_frame; [|exact Hd3]. intros x Hx. by fields. }
      pose proof (length_frees G) as HlG.
      destruct (add_spec fuel s4 (frees G) b (frees L2) Hs4 Hfl4 ltac:(lia))
        as (s5 & -> & [Hh5 Hd5] & (Hb5 & Ht5 & Hsz5 & Hu5)).
      subst s4. simpl in Hb5, Ht5, Hsz5, Hu5.
      exists b, s5. split; [done |].
      split; [|split; [congruence | intros x; memsolve]].
      constructor.
      * congruence.
      * rewrite Ht5, Ht3, Ht2. done.
      * rewrite Ht5, Ht3, Ht2. apply chain_app. split; [done |]. simpl.
        repeat split; try ar; try (by apply mod8_add).
        replace (0 + total_size G + (Sb + S)) with (0 + total_size G + Sb + S) by lia. done.
      * apply agree_app. split; [|apply agree_cons; split]; simpl.
        -- intros x Hx. destruct (HG x Hx) as (_ & ? & ?). destruct (HagG x Hx) as [<- <-].
           memsolve.
        -- memsolve.
        -- intros x Hx. destruct (H2 x Hx) as (? & _ & ?).
           destruct (Hag2 x Hx) as [<- <-]. memsolve.
      * rewrite frees_app. simpl. by split.
Qed.

Lemma chain_flag a0 L1 a S u u' L2 e :
  chain a0 (L1 ++ ASeg a S u :: L2) e -> chain a0 (L1 ++ ASeg a S u' :: L2) e.
Proof. rewrite !chain_app. simpl. tauto. Qed.

Lemma sfree_wf fuel s L1 a S L2 :
  Wf s (L1 ++ ASeg a S true :: L2) -> enough s fuel ->
  exists s', sfree fuel (Some (a + hdr_size)) s = Some s' /\
             Wf s' (free_abs L1 a S L2) /\
             total_region s' = total_region s /\
             in_use (rd (mem s') a) = 0.
Proof.
  intros HW Hf.
  pose proof (wf_fuel _ _ _ HW Hf) as Hlen.
  destruct HW as [Hbase Htot Hch Hag [Hh Hd]].
  destruct (chain_split _ _ _ _ _ Hch) as (H1 & H2 & Ha0 & Hae & HS & HSmod & _).
  simpl in H1, H2, Ha0, Hae, HSmod, HS.
  apply (chain_flag _ _ _ _ _ false) in Hch.
  pose proof (frees_sorted _ _ _ Hch) as Hs.
  apply agree_app in Hag as [Hag1 Hag]. apply agree_cons in Hag as [[HaS Hau] Hag2].
  simpl in HaS, Hau.
  rewrite frees_app in Hs, Hh, Hd. simpl in Hs, Hh, Hd.
  unfold sfree. rewrite Hbase.
  replace (a + hdr_size - hdr_size) with a by lia.
  rewrite Hau. simpl.
  pose proof (length_frees L1) as Hl1. rewrite length_app in Hlen.
  destruct (add_spec fuel s (frees L1) a (frees L2) Hs (conj Hh Hd) ltac:(lia))
    as (s1 & -> & Hfl1 & (Hb1 & Ht1 & Hsz1 & Hu1)).
  assert (HW1 : Wf s1 (L1 ++ ASeg a S false :: L2)).
  { constructor.
    - congruence.
    - by rewrite Ht1.
    - by rewrite Ht1.
    - apply agree_app. split; [|apply agree_cons; split]; simpl.
      + intros x Hx. destruct (H1 x Hx) as (_ & ? & ?). destruct (Hag1 x Hx) as [<- <-].
        memsolve.
      + memsolve.
      + intros x Hx. destruct (H2 x Hx) as (? & _ & ?).
        destruct (Hag2 x Hx) as [<- <-]. memsolve.
    - by rewrite frees_app. }
  destruct (merge_forward_wf _ _ _ _ _ HW1) as [HW2 [Ht2 Hu2]].
  unfold merge_adjacent.
  remember (merge_forward a s1) as s2 eqn:Es2. clear Es2.
  assert (Hf2 : enough s2 fuel) by (unfold enough in *; rewrite Ht2, Ht1; done).
  destruct (merge_backward_wf fuel _ _ _ _ _ HW2 Hf2) as (r & s3 & -> & HW3 & [Ht3 Hu3]).
  exists s3. split; [done |]. split; [done |]. split; [congruence |].
  rewrite Hu3, Hu2, Hu1. cases.
Qed.

(** What the abstract operations do to the neighbour flags and to the set of
    allocated segments. *)
Lemma merge_next_coalesced S L2 :
  coalesced L2 -> coalesced (snd (merge_next S L2)) /\
  (headu L2 = true \/ headu (snd (merge_next S L2)) = true).
Proof.
  destruct L2 as [|y L2]; simpl; [tauto |].
  intros Hc. apply (coalesced_cons y L2) in Hc as [Hy Hc].
  destruct (a_used y) eqn:E; simpl.
  - rewrite E. split; [apply coalesced_cons; auto | by left].
  - split; [done |]. right. by destruct Hy.
Qed.

Lemma free_abs_coalesced L1 a S L2 :
  coalesced (L1 ++ ASeg a S true :: L2) -> coalesced (free_abs L1 a S L2).
Proof.
  intros Hc. apply coalesced_app_iff in Hc as (Hc1 & Hc2 & _).
  apply coalesced_cons in Hc2 as [_ Hc2].
  destruct (merge_next_coalesced S L2 Hc2) as [Hc2' _].
  assert (Hh : headu (snd (merge_next S L2)) = true).
  { destruct L2 as [|y L2]; simpl; [done |].
    apply (coalesced_cons y L2) in Hc2 as [Hy _].
    destruct (a_used y) eqn:E; simpl; [done |]. by destruct Hy. }
  unfold free_abs.
  destruct (snoc_cases L1) as [-> | (G & y & ->)]; simpl.
  - apply coalesced_cons. auto.
  - rewrite merge_prev_snoc.
    apply coalesced_app_iff in Hc1 as (HcG & _ & Hl). simpl in Hl.
    destruct (a_used y) eqn:E.
    + apply coalesced_app_iff. split; [done |]. split; [|simpl; rewrite E; auto].
      apply coalesced_cons. split; [by left |]. apply coalesced_cons. auto.
    + apply coalesced_app_iff. split; [done |]. split; [|left; by destruct Hl].
      apply coalesced_cons. auto.
Qed.

Lemma alloc_abs_coalesced R L1 a S L2 :
  coalesced (L1 ++ ASeg a S false :: L2) -> coalesced (alloc_abs R L1 a S L2).
Proof.
  intros Hc. apply coalesced_app_iff in Hc as (Hc1 & Hc2 & _).
  apply coalesced_cons in Hc2 as [Hh Hc2]. simpl in Hh.
  destruct Hh as [Hh | Hh]; [done |].
  unfold alloc_abs. destruct (hdr_size <=? S - R).
  - apply coalesced_app_iff. split; [done |]. split; [|by right].
    apply coalesced_cons. split; [by left |]. apply coalesced_cons. auto.
  - apply coalesced_app_iff. split; [done |]. split; [|by right].
    apply coalesced_cons. auto.
Qed.

Lemma free_abs_used L1 a S L2 x :
  a_used x = true -> x ∈ free_abs L1 a S L2 <-> x ∈ L1 \/ x ∈ L2.
Proof.
  intros Hx. unfold free_abs.
  assert (H2 : x ∈ snd (merge_next S L2) <-> x ∈ L2).
  { destruct L2 as [|y L2]; simpl; [done |].
    destruct (a_used y) eqn:E; simpl; [done |].
    rewrite elem_of_cons. split; [auto | intros [-> | ?]; [congruence | done]]. }
  assert (Hne : forall b sz, x <> ASeg b sz false) by (intros b sz ->; done).
  destruct (snoc_cases L1) as [-> | (G & y & ->)]; simpl.
  - rewrite elem_of_cons, elem_of_nil, H2. specialize (Hne a (fst (merge_next S L2))). tauto.
  - rewrite merge_prev_snoc. destruct (a_used y) eqn:E;
      rewrite ?elem_of_app, ?elem_of_cons, ?elem_of_nil, H2.
    + specialize (Hne a (fst (merge_next S L2))). tauto.
    + specialize (Hne (a_addr y) (a_size y + fst (merge_next S L2))).
      assert (x <> y) by congruence. tauto.
Qed.

Lemma alloc_abs_used R L1 a S L2 x :
  a_used x = true ->
  x ∈ alloc_abs R L1 a S L2 <->
  x ∈ L1 \/ x ∈ L2 \/ x = ASeg a (if hdr_size <=? S - R then R else S) true.
Proof.
  intros Hx. unfold alloc_abs. destruct (hdr_size <=? S - R).
  - rewrite !elem_of_app, !elem_of_cons. split.
    + intros [? | [-> | [-> | ?]]]; auto. done.
    + intros [? | [? | ->]]; auto.
  - rewrite !elem_of_app, !elem_of_cons. split.
    + intros [? | [-> | ?]]; auto.
    + intros [? | [? | ->]]; auto.
Qed.

(** ** More fuel never changes a result *)

Lemma search_loop_mono f f' m needed c k r :
  search_loop f m needed c k = Some r -> (f <= f')%nat ->
  search_loop f' m needed c k = Some r.
Proof.
  revert f' c k. induction f as [|f IH]; intros f' c k H Hle; [done |].
  destruct f' as [|f']; [lia |]. simpl in *.
  destruct c as [c|]; [|done].
  destruct (needed <=? seg_size (rd m c)); [done |].
  apply IH; [done | lia].
Qed.

Lemma find_position_mono f f' m seg r x :
  find_position f m seg r = Some x -> (f <= f')%nat ->
  find_position f' m seg r = Some x.
Proof.
  revert f' r. induction f as [|f IH]; intros f' r H Hle; [done |].
  destruct f' as [|f']; [lia |]. simpl in *.
  destruct (next (rd m r)) as [n|]; [|done].
  destruct (n <? seg); [|done].
  apply IH; [done | lia].
Qed.

Lemma find_prev_mono f f' m seg t x :
  find_prev f m seg t = Some x -> (f <= f')%nat ->
  find_prev f' m seg t = Some x.
Proof.
  revert f' t. induction f as [|f IH]; intros f' t H Hle; [done |].
  destruct f' as [|f']; [lia |]. simpl in *.
  destruct t as [t|]; [|done].
  destruct (decide (t + seg_size (rd m t) = seg)); [done |].
  apply IH; [done | lia].
Qed.

Lemma add_to_free_list_mono f f' seg s s' :
  add_to_free_list f seg s = Some s' -> (f <= f')%nat ->
  add_to_free_list f' seg s = Some s'.
Proof.
  unfold add_to_free_list. intros H Hle.
  destruct (free_list_head s) as [h|]; [|done].
  destruct (seg <? h); [done |].
  destruct (find_position f _ seg h) as [r|] eqn:E; [|done].
  by rewrite (find_position_mono _ _ _ _ _ _ E Hle).
Qed.

Lemma merge_adjacent_mono f f' seg s x :
  merge_adjacent f seg s = Some x -> (f <= f')%nat ->
  merge_adjacent f' seg s = Some x.
Proof.
  unfold merge_adjacent, merge_backward. intros H Hle.
  destruct (find_prev f _ seg _) as [r|] eqn:E; [|done].
  rewrite (find_prev_mono _ _ _ _ _ _ E Hle).
  destruct r as [p|]; [|done].
  destruct (add_to_free_list f p _) as [s5|] eqn:E5; [|done].
  by rewrite (add_to_free_list_mono _ _ _ _ _ E5 Hle).
Qed.

Lemma smalloc_mono f f' n s x :
  smalloc f n s = Some x -> (f <= f')%nat -> smalloc f' n s = Some x.
Proof.
  unfold smalloc, search_for_fit. intros H Hle.
  destruct (base_address s); [|done].
  destruct (search_loop f _ _ _ _) as [r|] eqn:E; [|done].
  rewrite (search_loop_mono _ _ _ _ _ _ _ E Hle).
  destruct r as [[t|] k]; [|done].
  destruct (hdr_size <=? _); [|done].
  destruct (add_to_free_list f _ _) as [s2|] eqn:E2; [|done].
  by rewrite (add_to_free_list_mono _ _ _ _ _ E2 Hle).
Qed.

Lemma sfree_mono f f' p s s' :
  sfree f p s = Some s' -> (f <= f')%nat -> sfree f' p s = Some s'.
Proof.
  unfold sfree. intros H Hle.
  destruct p as [p|]; [|done].
  destruct (base_address s); [|done].
  destruct (in_use _ =? 0); [done |].
  destruct (add_to_free_list f _ s) as [s1|] eqn:E1; [|done].
  rewrite (add_to_free_list_mono _ _ _ _ _ E1 Hle).
  destruct (merge_adjacent f _ s1) as [x|] eqn:E2; [|done].
  by rewrite (merge_adjacent_mono _ _ _ _ _ E2 Hle).
Qed.

(** ** The invariant is kept by every operation *)

Lemma my_init_rep (region_size : Z) :
  0 < region_size <= int_max - 4096 ->
  let s := snd (my_init region_size Mapped initial_state) in
  fst (my_init region_size Mapped initial_state) = 0 /\
  total_region s = align_value region_size 4096 /\
  Rep s [ASeg 0 (align_value region_size 4096) false] ∅.
Proof.
  intros Hr. simpl.
  destruct (align_value_bounds region_size 4096) as [Hb Hmod]; [lia | lia | lia |].
  assert (Hm8 : align_value region_size 4096 mod 8 = 0).
  { apply Z.mod_divide in Hmod; [|lia]. destruct Hmod as [k ->].
    replace (k * 4096) with (k * 512 * 8) by lia. apply Z.mod_mul. lia. }
  assert (Hge : 4096 <= align_value region_size 4096).
  { apply Z.mod_divide in Hmod; [|lia]. destruct Hmod as [k Hk]. lia. }
  split; [done |]. split; [done |].
  constructor; [constructor; simpl | |].
  - done.
  - unfold int_max in *. lia.
  - repeat split; try ar. 
  - intros x Hx. apply list_elem_of_singleton in Hx as ->. simpl.
    rewrite rd_wr. by rewrite decide_True.
  - split; [done |]. simpl. rewrite rd_wr. by rewrite decide_True.
  - apply coalesced_cons. split; [by right | exact I].
  - intros p. split; [set_solver |].
    intros (sz & H). apply list_elem_of_singleton in H. done.
Qed.

Lemma smalloc_rep fuel s L live n :
  Rep s L live -> payload_ok n -> enough s fuel ->
  ((forall x, x ∈ L -> a_used x = false -> a_size x < required n) /\
   smalloc fuel n s = Some (None, failed, s)) \/
  (exists L1 a S L2 s',
     L = L1 ++ ASeg a S false :: L2 /\ required n <= S /\
     (forall x, x ∈ L1 -> a_used x = false -> a_size x < required n) /\
     smalloc fuel n s =
       Some (Some (a + hdr_size),
             MallocStatus 1 (a + hdr_size) (Z.of_nat (length (frees L1))), s') /\
     Rep s' (alloc_abs (required n) L1 a S L2) (live ∪ {[a + hdr_size]}) /\
     total_region s' = total_region s).
Proof.
  intros [HW Hc Hl] Hn Hf.
  destruct (first_fit_cases L (required n)) as [Hsm | (L1 & a & S & L2 & -> & HR & Hsm)].
  - left. split; [done |]. by eapply smalloc_none.
  - right. destruct (smalloc_wf fuel s L1 a S L2 n HW Hsm Hn HR Hf) as (s' & Hs' & HW' & Ht).
    exists L1, a, S, L2, s'.
    split; [done |]. split; [done |]. split; [done |]. split; [done |]. split; [|done].
    constructor; [done | by apply alloc_abs_coalesced |].
    intros p. rewrite elem_of_union, elem_of_singleton, Hl. split.
    + intros [(sz & H) | ->].
      * exists sz. apply alloc_abs_used; [done |].
        apply elem_of_app in H as [H | H]; [auto |].
        apply elem_of_cons in H as [H | H]; [done | auto].
      * eexists. apply alloc_abs_used; [done |]. right. right.
        by replace (a + hdr_size - hdr_size) with a by lia.
    + intros (sz & H). apply alloc_abs_used in H as [H | [H | H]]; [| | |done].
      * left. exists sz. apply elem_of_app. auto.
      * left. exists sz. apply elem_of_app. right. by right.
      * right. injection H as H _. lia.
Qed.

Lemma sfree_rep fuel s L live p :
  Rep s L live -> p ∈ live -> enough s fuel ->
  exists L1 S L2 s',
    L = L1 ++ ASeg (p - hdr_size) S true :: L2 /\
    sfree fuel (Some p) s = Some s' /\
    Rep s' (free_abs L1 (p - hdr_size) S L2) (live ∖ {[p]}) /\
    total_region s' = total_region s /\
    in_use (rd (mem s') (p - hdr_size)) = 0.
Proof.
  intros [HW Hc Hl] Hp Hf.
  apply Hl in Hp as (S & Hp).
  apply list_elem_of_split in Hp as (L1 & L2 & ->).
  destruct (sfree_wf fuel s L1 (p - hdr_size) S L2 HW Hf) as (s' & Hs' & HW' & Ht & Hu).
  replace (p - hdr_size + hdr_size) with p in Hs' by lia.
  exists L1, S, L2, s'.
  split; [done |]. split; [done |]. split; [|done].
  constructor; [done | by apply free_abs_coalesced |].
  destruct (chain_split _ _ _ _ _ (wf_chain _ _ HW)) as (H1 & H2 & _ & _ & HS & _).
  simpl in H1, H2, HS.
  intros q. rewrite elem_of_difference, elem_of_singleton, Hl. split.
  - intros [(sz & H) Hne]. exists sz. apply free_abs_used; [done |].
    apply elem_of_app in H as [H | H]; [auto |].
    apply elem_of_cons in H as [H | H]; [|auto].
    injection H as H _. lia.
  - intros (sz & H). apply free_abs_used in H as [H | H]; [| |done].
    + split; [exists sz; apply elem_of_app; auto |].
      destruct (H1 _ H) as (_ & ? & ?). simpl in *. ar.
    + split; [exists sz; apply elem_of_app; right; by right |].
      destruct (H2 _ H) as (? & _). simpl in *. ar.
Qed.

(** ** Reachable states

    [reachable region_size s live]: [s] is the state after a successful
    [my_init region_size] followed by calls of [smalloc] with non-negative
    sizes and of [sfree] on [NULL] or on handles that [smalloc] returned and
    that were not released since; [live] is the set of those handles. *)
Inductive reachable (region_size : Z) : state -> gset Z -> Prop :=
  | reach_init :
      0 < region_size <= int_max - 4096 ->
      reachable region_size (snd (my_init region_size Mapped initial_state)) ∅
  | reach_alloc s live fuel n r st s' :
      reachable region_size s live ->
      payload_ok n ->
      smalloc fuel n s = Some (r, st, s') ->
      reachable region_size s'
        (match r with Some p => live ∪ {[p]} | None => live end)
  | reach_free s live fuel p s' :
      reachable region_size s live ->
      p ∈ live ->
      sfree fuel (Some p) s = Some s' ->
      reachable region_size s' (live ∖ {[p]})
  | reach_free_null s live fuel s' :
      reachable region_size s live ->
      sfree fuel None s = Some s' ->
      reachable region_size s' live.

Lemma enough_max s fuel : enough s (Nat.max fuel (S (Z.to_nat (total_region s)))).
Proof. unfold enough. lia. Qed.

Lemma reachable_rep region_size s live :
  reachable region_size s live ->
  exists L, Rep s L live /\ total_region s = align_value region_size 4096.
Proof.
  induction 1 as [Hr | s live fuel n r st s' _ (L & HR & Ht) Hn Hs
                     | s live fuel p s' _ (L & HR & Ht) Hp Hs
                     | s live fuel s' _ (L & HR & Ht) Hs].
  - destruct (my_init_rep region_size Hr) as (_ & Ht & HR). eauto.
  - apply (smalloc_mono _ (Nat.max fuel (S (Z.to_nat (total_region s))))) in Hs; [|lia].
    destruct (smalloc_rep _ s L live n HR Hn (enough_max s fuel))
      as [[_ Hs'] | (L1 & a & S & L2 & s2 & -> & _ & _ & Hs' & HR' & Ht')].
    + rewrite Hs' in Hs. injection Hs as <- <- <-. eauto.
    + rewrite Hs' in Hs. injection Hs as <- <- <-. eexists. split; [exact HR' | congruence].
  - apply (sfree_mono _ (Nat.max fuel (S (Z.to_nat (total_region s))))) in Hs; [|lia].
    destruct (sfree_rep _ s L live p HR Hp (enough_max s fuel))
      as (L1 & S & L2 & s2 & -> & Hs' & HR' & Ht' & _).
    rewrite Hs' in Hs. injection Hs as <-. eexists. split; [exact HR' | congruence].
  - injection Hs as <-. eauto.
Qed.

(** ** What the claims talk about, read off the memory *)

(** [tiles m a L e]: the headers stored at the addresses [L] describe
    segments that lie back to back from [a] to [e]. *)
Fixpoint tiles (m : gmap Z mem_seg) (a : Z) (L : list Z) (e : Z) : Prop :=
  match L with
  | [] => a = e
  | x :: L' => x = a /\ 0 < seg_size (rd m x) /\ tiles m (a + seg_size (rd m x)) L' e
  end.

(** The start addresses of the segments of the region. *)
Definition segments (s : state) (L : list Z) : Prop :=
  tiles (mem s) 0 L (total_region s).

Fixpoint no_adjacent_free (m : gmap Z mem_seg) (L : list Z) : Prop :=
  match L with
  | [] => True
  | x :: L' =>
      match L' with
      | y :: _ => ~ (in_use (rd m x) = 0 /\ in_use (rd m y) = 0)
      | [] => True
      end /\ no_adjacent_free m L'
  end.

Fixpoint sum_sizes (m : gmap Z mem_seg) (L : list Z) : Z :=
  match L with [] => 0 | x :: L' => seg_size (rd m x) + sum_sizes m L' end.

(** [walk m cur F]: following [next] from [cur] visits exactly [F] and then
    reaches [NULL]. *)
Fixpoint walk (m : gmap Z mem_seg) (cur : option Z) (F : list Z) : Prop :=
  match F with
  | [] => cur = None
  | a :: F' => cur = Some a /\ walk m (next (rd m a)) F'
  end.

Definition free_list (s : state) (F : list Z) : Prop :=
  walk (mem s) (free_list_head s) F.

Lemma tiles_unique m a L L' e :
  tiles m a L e -> tiles m a L' e -> L = L'.
Proof.
  revert a L'. induction L as [|x L IH]; intros a [|y L']; simpl; try done.
  - intros <- (_ & Hy & Ht).
    assert (Hge : forall K b, tiles m b K a -> b <= a).
    { clear. induction K as [|z K IH]; simpl; intros b; [lia |].
      intros (_ & ? & Ht). apply IH in Ht. lia. }
    apply Hge in Ht. lia.
  - intros (_ & Hx & Ht) <-.
    assert (Hge : forall K b, tiles m b K a -> b <= a).
    { clear. induction K as [|z K IH]; simpl; intros b; [lia |].
      intros (_ & ? & Ht). apply IH in Ht. lia. }
    apply Hge in Ht. lia.
  - intros (-> & _ & Ht) (-> & _ & Ht'). f_equal. by eapply IH.
Qed.

Lemma walk_unique m cur F F' : walk m cur F -> walk m cur F' -> F = F'.
Proof.
  revert cur F'. induction F as [|a F IH]; intros cur [|b F']; simpl.
  - done.
  - intros -> [? _]. done.
  - intros [-> _] ?. done.
  - intros [-> Hw] [[= <-] Hw']. f_equal. by eapply IH.
Qed.

Lemma dll_walk m p F : dll m p F None -> walk m (hd_or F None) F.
Proof.
  revert p. induction F as [|a F IH]; intros p; simpl; [done |].
  intros (_ & Hn & Hd). split; [done |]. rewrite Hn. by eapply IH.
Qed.

Section Bridge.
Context (s : state) (L : list aseg) (HW : Wf s L).

Lemma wf_free_list : free_list s (frees L).
Proof.
  destruct (wf_flist _ _ HW) as [Hh Hd]. unfold free_list. rewrite Hh.
  replace (head (frees L)) with (hd_or (frees L) None) by (by destruct (frees L)).
  by eapply dll_walk.
Qed.

Lemma wf_free_list_eq F : free_list s F -> F = frees L.
Proof. intros H. eapply walk_unique; [exact H | apply wf_free_list]. Qed.

Lemma agree_tiles a K e : agree (mem s) K -> chain a K e -> tiles (mem s) a (map a_addr K) e.
Proof.
  revert a. induction K as [|x K IH]; intros a Hag; simpl; [done |].
  apply agree_cons in Hag as [[Hsz _] Hag].
  intros (<- & Hh & _ & Hc). rewrite Hsz. repeat split; [ar | by apply IH].
Qed.

Lemma wf_segments : segments s (map a_addr L).
Proof. apply agree_tiles; [apply (wf_agree _ _ HW) | apply (wf_chain _ _ HW)]. Qed.

Lemma wf_segments_eq K : segments s K -> K = map a_addr L.
Proof. intros H. eapply tiles_unique; [exact H | apply wf_segments]. Qed.

Lemma agree_sum K : agree (mem s) K -> sum_sizes (mem s) (map a_addr K) = total_size K.
Proof.
  induction K as [|x K IH]; intros Hag; simpl; [done |].
  apply agree_cons in Hag as [[Hsz _] Hag]. rewrite Hsz, IH; done.
Qed.

Lemma wf_sum : sum_sizes (mem s) (map a_addr L) = total_region s.
Proof.
  rewrite agree_sum by apply (wf_agree _ _ HW).
  pose proof (chain_total _ _ _ (wf_chain _ _ HW)). lia.
Qed.

Lemma agree_no_adjacent K :
  agree (mem s) K -> coalesced K -> no_adjacent_free (mem s) (map a_addr K).
Proof.
  induction K as [|x K IH]; intros Hag Hc; [done |].
  apply coalesced_cons in Hc as [Hx Hc].
  apply agree_cons in Hag as [[_ Hux] Hag].
  split; [|by apply IH].
  destruct K as [|y K]; simpl; [done |].
  apply agree_cons in Hag as [[_ Huy] _]. simpl in Hx.
  intros [H1 H2]. rewrite H1 in Hux. rewrite H2 in Huy.
  destruct Hx as [E | E]; rewrite E in *; done.
Qed.
End Bridge.

Lemma frees_split L F1 a F2 :
  frees L = F1 ++ a :: F2 ->
  exists L1 S L2, L = L1 ++ ASeg a S false :: L2 /\ frees L1 = F1 /\ frees L2 = F2.
Proof.
  revert F1. induction L as [|[b Sb ub] L IH]; intros F1 H; simpl in H.
  - by destruct F1.
  - destruct ub; simpl in H.
    + destruct (IH F1 H) as (L1 & S & L2 & -> & <- & <-).
      by exists (ASeg b Sb true :: L1), S, L2.
    + destruct F1 as [|f F1]; simpl in H.
      * injection H as -> <-. by exists [], Sb, L.
      * injection H as -> H.
        destruct (IH F1 H) as (L1 & S & L2 & -> & <- & <-).
        by exists (ASeg f Sb false :: L1), S, L2.
Qed.

Lemma merge_prev_lastu L1 a S L2 :
  lastu L1 = true -> merge_prev L1 a S L2 = L1 ++ ASeg a S false :: L2.
Proof.
  destruct (snoc_cases L1) as [-> | (G & y & ->)]; [done |].
  rewrite lastu_snoc, merge_prev_snoc. intros ->. by rewrite <- app_assoc.
Qed.

Lemma merge_next_size a0 a S L2 e :
  chain a0 (ASeg a S false :: L2) e -> S <= fst (merge_next S L2).
Proof.
  intros (_ & _ & _ & Hc). destruct L2 as [|y L2]; simpl; [lia |].
  destruct Hc as (_ & Hy & _). destruct (a_used y); simpl; ar.
Qed.

(** Allocation seen from the free list: the first node that is large enough
    is the one that is taken. *)
Lemma smalloc_at fuel s L n F1 a F2 :
  Wf s L -> payload_ok n -> enough s fuel ->
  free_list s (F1 ++ a :: F2) ->
  (forall x, x ∈ F1 -> seg_size (rd (mem s) x) < required n) ->
  required n <= seg_size (rd (mem s) a) ->
  exists L1 L2 s',
    L = L1 ++ ASeg a (seg_size (rd (mem s) a)) false :: L2 /\
    frees L1 = F1 /\ frees L2 = F2 /\
    smalloc fuel n s =
      Some (Some (a + hdr_size),
            MallocStatus 1 (a + hdr_size) (Z.of_nat (length F1)), s') /\
    Wf s' (alloc_abs (required n) L1 a (seg_size (rd (mem s) a)) L2) /\
    total_region s' = total_region s.
Proof.
  intros HW Hn Hf HF Hsm HR.
  apply (wf_free_list_eq _ _ HW) in HF. symmetry in HF.
  apply frees_split in HF as (L1 & S & L2 & -> & <- & <-).
  pose proof (wf_agree _ _ HW) as Hag.
  apply agree_app in Hag as [Hag1 Hag]. apply agree_cons in Hag as [[HaS _] _].
  simpl in HaS. rewrite HaS in *.
  destruct (smalloc_wf fuel s L1 a S L2 n HW) as (s' & Hs' & HW' & Ht); try done.
  { intros x Hx Hu. destruct (Hag1 x Hx) as [<- _]. apply Hsm.
    apply elem_of_frees. by exists x. }
  by exists L1, L2, s'.
Qed.

(** ** Concrete runs on a 4096-byte region *)

Definition run_smalloc (n : Z) (s : state) : state :=
  match smalloc (Z.to_nat 4097) n s with
  | Some (_, _, s') => s'
  | None => s
  end.

Definition run_sfree (p : Z) (s : state) : state :=
  default s (sfree (Z.to_nat 4097) (Some p) s).

(** [my_init(4096)] *)
Definition st_init : state := snd (my_init 4096 Mapped initial_state).
(** ... then [smalloc(100)], which returns offset 24 *)
Definition st_one : state := run_smalloc 100 st_init.
(** [my_init(4096)], then [smalloc(4048)]: the remainder is a bare header *)
Definition st_tail : state := run_smalloc 4048 st_init.
(** three [smalloc(100)] (offsets 24, 152, 280), then [sfree] of the first *)
Definition st_gap : state :=
  run_sfree 24 (run_smalloc 100 (run_smalloc 100 (run_smalloc 100 st_init))).

Lemma reach_st_init : reachable 4096 st_init ∅.
Proof. apply reach_init. unfold int_max. lia. Qed.

Lemma payload_ok_small n : 0 <= n <= 5000 -> payload_ok n.
Proof. unfold payload_ok, int_max, hdr_size. lia. Qed.

Lemma reach_st_one : reachable 4096 st_one (∅ ∪ {[24]}).
Proof.
  apply (reach_alloc 4096 st_init ∅ (Z.to_nat 4097) 100 (Some 24) (MallocStatus 1 24 0)).
  - apply reach_st_init.
  - apply payload_ok_small. lia.
  - vm_compute. reflexivity.
Qed.

Lemma reach_st_tail : reachable 4096 st_tail (∅ ∪ {[24]}).
Proof.
  apply (reach_alloc 4096 st_init ∅ (Z.to_nat 4097) 4048 (Some 24) (MallocStatus 1 24 0)).
  - apply reach_st_init.
  - apply payload_ok_small. lia.
  - vm_compute. reflexivity.
Qed.

Lemma reach_st_gap : reachable 4096 st_gap ((∅ ∪ {[24]} ∪ {[152]} ∪ {[280]}) ∖ {[24]}).
Proof.
  apply (reach_free 4096 (run_smalloc 100 (run_smalloc 100 (run_smalloc 100 st_init)))
           _ (Z.to_nat 4097) 24).
  - apply (reach_alloc 4096 (run_smalloc 100 (run_smalloc 100 st_init)) _
             (Z.to_nat 4097) 100 (Some 280) (MallocStatus 1 280 0)).
    + apply (reach_alloc 4096 (run_smalloc 100 st_init) _
               (Z.to_nat 4097) 100 (Some 152) (MallocStatus 1 152 0)).
      * apply reach_st_one.
      * apply payload_ok_small. lia.
      * vm_compute. reflexivity.
    + apply payload_ok_small. lia.
    + vm_compute. reflexivity.
  - set_solver.
  - vm_compute. reflexivity.
Qed.

Lemma enough_4097 s : total_region s = 4096 -> enough s (Z.to_nat 4097).
Proof. unfold enough. intros ->. lia. Qed.

(** * The claims *)

(** The invariant stated on the memory itself, for every reachable state. *)
Lemma reachable_coalesced region_size s live :
  reachable region_size s live ->
  exists L, segments s L /\ no_adjacent_free (mem s) L.
Proof.
  intros Hr. destruct (reachable_rep _ _ _ Hr) as (L & [HW Hc _] & _).
  exists (map a_addr L). split; [by apply wf_segments |].
  apply (agree_no_adjacent s); [apply (wf_agree _ _ HW) | done].
Qed.

(** C1. In a reachable state, [sfree] of a handle that is in use returns, and
    afterwards no two address-adjacent segments of the region are both
    free. *)
Theorem C1_free_leaves_no_adjacent_free region_size s live p fuel :
  reachable region_size s live -> p ∈ live -> enough s fuel ->
  exists s' L,
    sfree fuel (Some p) s = Some s' /\
    segments s' L /\ no_adjacent_free (mem s') L.
Proof.
  intros Hr Hp Hf.
  pose proof (reach_free region_size s live fuel p) as Hstep.
  destruct (reachable_rep _ _ _ Hr) as (L & HR & _).
  destruct (sfree_rep fuel s L live p HR Hp Hf) as (L1 & S & L2 & s' & _ & Hs' & _).
  destruct (reachable_coalesced _ _ _ (Hstep s' Hr Hp Hs')) as (L' & Hseg & Hno).
  by exists s', L'.
Qed.

Lemma C1_witness :
  exists s' L,
    sfree (Z.to_nat 4097) (Some 24) st_one = Some s' /\
    segments s' L /\ no_adjacent_free (mem s') L.
Proof.
  apply (C1_free_leaves_no_adjacent_free 4096 st_one (∅ ∪ {[24]}) 24 (Z.to_nat 4097)).
  - apply reach_st_one.
  - set_solver.
  - apply enough_4097. reflexivity.
Defined.

(** C2. In every state reachable from a successful [my_init region_size], the
    sizes of the segments that tile the region add up to
    [align_value region_size 4096], which is also the recorded
    [total_region]. *)
Theorem C2_sizes_sum_to_region region_size s live :
  reachable region_size s live ->
  total_region s = align_value region_size 4096 /\
  exists L, segments s L /\ sum_sizes (mem s) L = align_value region_size 4096.
Proof.
  intros Hr. destruct (reachable_rep _ _ _ Hr) as (L & [HW _ _] & Ht).
  split; [done |]. exists (map a_addr L). split; [by apply wf_segments |].
  rewrite <- Ht. by apply wf_sum.
Qed.

Lemma C2_witness :
  total_region st_gap = align_value 4096 4096 /\
  exists L, segments st_gap L /\ sum_sizes (mem st_gap) L = align_value 4096 4096.
Proof.
  apply (C2_sizes_sum_to_region 4096 st_gap _ reach_st_gap).
Defined.

(** The failure path of [smalloc]: in a reachable state whose free list holds
    no segment as large as the request the code computes,
    [align_value (hdr_size + n) 8] in [int] arithmetic, [smalloc n] returns
    [NULL] with status [success = 0], [payload_offset = -1], [hops = -1], and
    the state it leaves is the state it found. *)
Lemma no_fit_returns_null region_size s live n fuel F :
  reachable region_size s live -> enough s fuel ->
  free_list s F ->
  (forall x, x ∈ F -> seg_size (rd (mem s) x) < align_value (int_add hdr_size n) 8) ->
  smalloc fuel n s = Some (None, MallocStatus 0 (-1) (-1), s).
Proof.
  intros Hr Hf HF Hsm.
  destruct (reachable_rep _ _ _ Hr) as (L & [HW _ _] & _).
  apply (wf_free_list_eq _ _ HW) in HF. subst F.
  apply (smalloc_none fuel s L n HW); [|done].
  intros x Hx Hu. destruct (wf_agree _ _ HW x Hx) as [<- _].
  apply Hsm. apply elem_of_frees. by exists x.
Qed.

(** The spec's [alignUp(x, k)]: [x] rounded up to a multiple of [k], as a
    number, without the wrap-around of [int]. *)
Definition align_up (x k : Z) : Z := (x + k - 1) / k * k.

Lemma align_value_is_align_up (n : Z) :
  payload_ok n -> align_value (int_add hdr_size n) 8 = align_up (hdr_size + n) 8.
Proof.
  unfold payload_ok, int_add, align_up, hdr_size, int_max. intros H.
  rewrite wrap_int_id by (unfold int_max; lia).
  apply align_value_spec; unfold int_max; lia.
Qed.

(** C4, at the failing input.  On the fresh 4096-byte region the only free
    segment has 4096 bytes, fewer than [alignUp(24 + 2147483647, 8)], so the
    claim wants [smalloc(2147483647)] to fail and change nothing.  In the
    code [hdr_size + payload_size] overflows [int]: the request wraps to a
    negative number, the head of the free list passes the size test, the
    remainder wraps to a negative number too, and the call reports success
    with payload offset 24 and marks the whole segment in use. *)
Theorem C4_overflowing_request_succeeds :
  free_list st_init [0] /\
  (forall x, x ∈ [0] ->
     seg_size (rd (mem st_init) x) < align_up (hdr_size + 2147483647) 8) /\
  align_value (int_add hdr_size 2147483647) 8 = -2147483616 /\
  exists s',
    smalloc (Z.to_nat 4097) 2147483647 st_init =
      Some (Some 24, MallocStatus 1 24 0, s') /\
    in_use (rd (mem s') 0) = 1 /\ seg_size (rd (mem s') 0) = 4096 /\
    s' <> st_init.
Proof.
  split; [vm_compute; auto |].
  split; [intros x Hx; apply list_elem_of_singleton in Hx as ->; vm_compute; reflexivity |].
  split; [vm_compute; reflexivity |].
  eexists. split; [vm_compute; reflexivity |].
  split; [vm_compute; reflexivity |]. split; [vm_compute; reflexivity |].
  intros E. apply (f_equal (fun s => in_use (rd (mem s) 0))) in E.
  vm_compute in E. discriminate E.
Qed.

(** C7. In every reachable state the free list is well formed: following
    [next] from the head visits strictly ascending addresses and ends at
    [NULL], the head has no [prev], and for neighbours [a], [b] of the list
    [a]'s [next] is [b] and [b]'s [prev] is [a]. *)
Theorem C7_free_list_well_formed region_size s live :
  reachable region_size s live ->
  exists F,
    free_list s F /\ ssorted F /\
    (forall h, free_list_head s = Some h -> prev (rd (mem s) h) = None) /\
    (forall F1 a b F2, F = F1 ++ a :: b :: F2 ->
       next (rd (mem s) a) = Some b /\ prev (rd (mem s) b) = Some a).
Proof.
  intros Hr. destruct (reachable_rep _ _ _ Hr) as (L & [HW _ _] & _).
  destruct (wf_flist _ _ HW) as [Hh Hd].
  exists (frees L). split; [by apply wf_free_list |].
  split; [apply (frees_sorted _ _ _ (wf_chain _ _ HW)) |]. split.
  - intros h Hhd. rewrite Hh in Hhd.
    destruct (frees L) as [|h' F]; [done |]. injection Hhd as ->.
    by destruct Hd as [Hp _].
  - intros F1 a b F2 E. rewrite E in Hd.
    apply dll_app in Hd as [_ (_ & Hn & Hp & _)]. done.
Qed.

Lemma C7_witness :
  exists F,
    free_list st_gap F /\ ssorted F /\
    (forall h, free_list_head st_gap = Some h -> prev (rd (mem st_gap) h) = None) /\
    (forall F1 a b F2, F = F1 ++ a :: b :: F2 ->
       next (rd (mem st_gap) a) = Some b /\ prev (rd (mem st_gap) b) = Some a).
Proof.
  apply (C7_free_list_well_formed 4096 st_gap _ reach_st_gap).
Defined.

(** [smalloc] hands the counter of [search_for_fit] through as [hops]. *)
Lemma smalloc_hops fuel n s p st s' :
  smalloc fuel n s = Some (Some p, st, s') ->
  search_for_fit fuel s (align_value (int_add hdr_size n) 8) =
    Some (Some (p - hdr_size), hops st).
Proof.
  unfold smalloc. destruct (base_address s) as [b|]; [|done].
  destruct (search_for_fit fuel s _) as [[[t|] k]|]; try done.
  destruct (if hdr_size <=? _ then _ else _) as [s2|]; [|done].
  intros [= <- <- _]. simpl. do 3 f_equal. lia.
Qed.

(** C3, as stated, fails on the fresh 4096-byte region: the only free-list
    entry fits a request of 128 bytes, so one entry is inspected up to and
    including the match, yet the reported hop count is 0. *)
Lemma C3_counterexample :
  free_list st_init [0] /\
  128 <= seg_size (rd (mem st_init) 0) /\
  search_for_fit (Z.to_nat 4097) st_init 128 = Some (Some 0, 0) /\
  0 <> Z.of_nat (length [0]).
Proof. vm_compute. repeat split; congruence. Qed.

(** C3, amended. In a reachable state whose free list is [F]: when the first
    entry that fits comes after the entries [F1], the search reports
    [length F1] hops, the number of entries passed over before the match (the
    match itself is not counted); when no entry fits, it reports [length F];
    and a successful [smalloc] reports the count of its search as [hops]. *)
Theorem C3_hops_count_entries_before_fit region_size s live fuel needed F :
  reachable region_size s live -> enough s fuel -> free_list s F ->
  (forall F1 a F2,
     F = F1 ++ a :: F2 ->
     (forall x, x ∈ F1 -> seg_size (rd (mem s) x) < needed) ->
     needed <= seg_size (rd (mem s) a) ->
     search_for_fit fuel s needed = Some (Some a, Z.of_nat (length F1))) /\
  ((forall x, x ∈ F -> seg_size (rd (mem s) x) < needed) ->
   search_for_fit fuel s needed = Some (None, Z.of_nat (length F))) /\
  (forall n p st s',
     smalloc fuel n s = Some (Some p, st, s') ->
     search_for_fit fuel s (align_value (int_add hdr_size n) 8) =
       Some (Some (p - hdr_size), hops st)).
Proof.
  intros Hr Hf HF.
  destruct (reachable_rep _ _ _ Hr) as (L & [HW _ _] & _).
  apply (wf_free_list_eq _ _ HW) in HF. subst F.
  pose proof (wf_fuel _ _ _ HW Hf) as Hlen.
  pose proof (wf_length _ _ HW) as HlenZ.
  pose proof (length_frees L) as Hl.
  destruct (wf_flist _ _ HW) as [Hh Hd].
  pose proof (wf_total _ _ HW) as Htot.
  unfold search_for_fit. rewrite Hh.
  split; [|split].
  - intros F1 a F2 E Hsm Hfit. rewrite E in *.
    rewrite length_app in Hl. simpl in Hl.
    apply search_loop_found; try done; lia.
  - intros Hsm. apply search_loop_none; try done; lia.
  - intros n p st s' Hs. rewrite <- Hh. apply (smalloc_hops _ _ _ _ _ _ Hs).
Qed.

Lemma C3_witness :
  (forall F1 a F2,
     [0] = F1 ++ a :: F2 ->
     (forall x, x ∈ F1 -> seg_size (rd (mem st_init) x) < 128) ->
     128 <= seg_size (rd (mem st_init) a) ->
     search_for_fit (Z.to_nat 4097) st_init 128 = Some (Some a, Z.of_nat (length F1))) /\
  ((forall x, x ∈ [0] -> seg_size (rd (mem st_init) x) < 128) ->
   search_for_fit (Z.to_nat 4097) st_init 128 = Some (None, Z.of_nat (length [0]))) /\
  (forall n p st s',
     smalloc (Z.to_nat 4097) n st_init = Some (Some p, st, s') ->
     search_for_fit (Z.to_nat 4097) st_init (align_value (int_add hdr_size n) 8) =
       Some (Some (p - hdr_size), hops st)).
Proof.
  apply (C3_hops_count_entries_before_fit 4096 st_init ∅ (Z.to_nat 4097) 128 [0]).
  - apply reach_st_init.
  - apply enough_4097. reflexivity.
  - vm_compute. auto.
Defined.

(** C5. In a reachable state, when the first free-list entry that fits the
    request is [a] with size [S], and [R = align_value (hdr_size + n) 8]:
    [smalloc n] returns the payload of [a] and marks [a] in use; if
    [S - R >= hdr_size] then [a]'s size becomes [R] and a free segment of
    size [S - R] starts right behind it at [a + R] and takes [a]'s place in
    the free list; otherwise [a] keeps its size [S], leaves the free list, and
    [S - R] is at most [hdr_size - 1]. *)
Theorem C5_split_or_keep region_size s live n fuel F1 a F2 :
  reachable region_size s live -> payload_ok n -> enough s fuel ->
  free_list s (F1 ++ a :: F2) ->
  (forall x, x ∈ F1 -> seg_size (rd (mem s) x) < align_value (int_add hdr_size n) 8) ->
  align_value (int_add hdr_size n) 8 <= seg_size (rd (mem s) a) ->
  let S := seg_size (rd (mem s) a) in
  let R := align_value (int_add hdr_size n) 8 in
  exists st s',
    smalloc fuel n s = Some (Some (a + hdr_size), st, s') /\
    in_use (rd (mem s') a) = 1 /\
    (hdr_size <= S - R ->
       seg_size (rd (mem s') a) = R /\
       seg_size (rd (mem s') (a + R)) = S - R /\
       in_use (rd (mem s') (a + R)) = 0 /\
       free_list s' (F1 ++ (a + R) :: F2)) /\
    (S - R < hdr_size ->
       seg_size (rd (mem s') a) = S /\
       free_list s' (F1 ++ F2) /\
       0 <= S - R <= hdr_size - 1).
Proof.
  intros Hr Hn Hf HF Hsm Hfit S R.
  destruct (reachable_rep _ _ _ Hr) as (L & [HW _ _] & _).
  destruct (smalloc_at fuel s L n F1 a F2 HW Hn Hf HF Hsm Hfit)
    as (L1 & L2 & s' & -> & <- & <- & Hs' & HW' & _).
  fold (required n) in *. fold S in HW', Hfit. fold R in HW', Hfit.
  eexists _, s'. split; [exact Hs' |].
  pose proof (wf_agree _ _ HW') as Hag.
  pose proof (wf_free_list _ _ HW') as Hfl.
  unfold alloc_abs in Hag, Hfl.
  destruct (Z.leb_spec hdr_size (S - R)) as [Hsp | Hsp].
  - apply agree_app in Hag as [_ Hag].
    apply agree_cons in Hag as [[Hsa Hua] Hag].
    apply agree_cons in Hag as [[Hsb Hub] _]. simpl in *.
    rewrite frees_app in Hfl. simpl in Hfl.
    split; [done |]. split; [done | lia].
  - apply agree_app in Hag as [_ Hag].
    apply agree_cons in Hag as [[Hsa Hua] _]. simpl in *.
    rewrite frees_app in Hfl. simpl in Hfl.
    split; [done |]. split; [lia |]. intros _. repeat split; try done; lia.
Qed.

Lemma C5_witness :
  exists st s',
    smalloc (Z.to_nat 4097) 100 st_init = Some (Some (0 + hdr_size), st, s') /\
    in_use (rd (mem s') 0) = 1 /\
    (hdr_size <= seg_size (rd (mem st_init) 0) - align_value (int_add hdr_size 100) 8 ->
       seg_size (rd (mem s') 0) = align_value (int_add hdr_size 100) 8 /\
       seg_size (rd (mem s') (0 + align_value (int_add hdr_size 100) 8)) =
         seg_size (rd (mem st_init) 0) - align_value (int_add hdr_size 100) 8 /\
       in_use (rd (mem s') (0 + align_value (int_add hdr_size 100) 8)) = 0 /\
       free_list s' ([] ++ (0 + align_value (int_add hdr_size 100) 8) :: [])) /\
    (seg_size (rd (mem st_init) 0) - align_value (int_add hdr_size 100) 8 < hdr_size ->
       seg_size (rd (mem s') 0) = seg_size (rd (mem st_init) 0) /\
       free_list s' ([] ++ []) /\
       0 <= seg_size (rd (mem st_init) 0) - align_value (int_add hdr_size 100) 8
         <= hdr_size - 1).
Proof.
  apply (C5_split_or_keep 4096 st_init ∅ 100 (Z.to_nat 4097) [] 0 []).
  - apply reach_st_init.
  - apply payload_ok_small. lia.
  - apply enough_4097. reflexivity.
  - vm_compute. auto.
  - intros x Hx. inversion Hx.
  - vm_compute. congruence.
Defined.

(** C6, as stated, fails: after [my_init(4096)] and [smalloc(4048)] the free
    list holds one segment of 24 bytes at offset 4072; [smalloc(0)] takes it
    whole and returns payload offset 4096, which is the region size and not
    below it. *)
Lemma C6_counterexample :
  reachable 4096 st_tail (∅ ∪ {[24]}) /\
  total_region st_tail = 4096 /\
  exists s',
    smalloc (Z.to_nat 4097) 0 st_tail = Some (Some 4096, MallocStatus 1 4096 0, s') /\
    ~ (0 <= 4096 < total_region st_tail).
Proof.
  split; [apply reach_st_tail |]. split; [reflexivity |].
  eexists. split; [vm_compute; reflexivity |].
  vm_compute. intros [_ H]. discriminate H.
Qed.

(** Sizes beyond [payload_ok] are a defect of their own (see C4): on the same
    state [smalloc(2147483617)] overflows, takes the 24-byte segment and
    returns payload offset 4096 for a positive size. *)
Lemma overflowing_size_reaches_region_end :
  ~ payload_ok 2147483617 /\
  exists s',
    smalloc (Z.to_nat 4097) 2147483617 st_tail =
      Some (Some 4096, MallocStatus 1 4096 0, s').
Proof.
  split; [unfold payload_ok, int_max, hdr_size; lia |].
  eexists. vm_compute. reflexivity.
Qed.

(** C6, amended. For every successful [smalloc n] in a reachable state, with
    a size in range, [0 <= n <= INT_MAX - hdr_size - 8], the returned
    payload offset is the returned pointer, lies in [0 .. total_region],
    lies strictly below [total_region] whenever [n > 0], and is a multiple
    of 8. *)
Theorem C6_payload_offset_bounds region_size s live n fuel p st s' :
  reachable region_size s live -> payload_ok n ->
  smalloc fuel n s = Some (Some p, st, s') ->
  success st = 1 /\ payload_offset st = p /\
  0 <= payload_offset st <= total_region s /\
  (0 < n -> payload_offset st < total_region s) /\
  payload_offset st mod 8 = 0.
Proof.
  intros Hr Hn Hs.
  destruct (reachable_rep _ _ _ Hr) as (L & HR & _).
  apply (smalloc_mono _ (Nat.max fuel (Datatypes.S (Z.to_nat (total_region s))))) in Hs; [|lia].
  destruct (smalloc_rep _ s L live n HR Hn (enough_max s fuel))
    as [[_ Hs'] | (L1 & a & S & L2 & s2 & -> & HRS & _ & Hs' & _ & _)];
    rewrite Hs' in Hs; [done |].
  injection Hs as <- <- <-. simpl.
  pose proof (wf_chain _ _ (rep_wf _ _ _ HR)) as Hc.
  destruct (chain_split _ _ _ _ _ Hc) as (_ & _ & Ha0 & Hae & _ & _ & _).
  simpl in Ha0, Hae.
  destruct (required_bounds n Hn) as [HRb _].
  assert (Ha8 : a mod 8 = 0).
  { apply (chain_aligned _ _ _ (ASeg a S false) Hc); [done |].
    apply elem_of_app. right. left. }
  split; [done |]. split; [done |].
  split; [ar |]. split; [intros; ar |].
  by apply mod8_add.
Qed.

Lemma C6_witness :
  success (MallocStatus 1 24 0) = 1 /\ payload_offset (MallocStatus 1 24 0) = 24 /\
  0 <= payload_offset (MallocStatus 1 24 0) <= total_region st_init /\
  (0 < 100 -> payload_offset (MallocStatus 1 24 0) < total_region st_init) /\
  payload_offset (MallocStatus 1 24 0) mod 8 = 0.
Proof.
  apply (C6_payload_offset_bounds 4096 st_init ∅ 100 (Z.to_nat 4097) 24
           (MallocStatus 1 24 0) st_one).
  - apply reach_st_init.
  - apply payload_ok_small. lia.
  - vm_compute. reflexivity.
Defined.

(** C8, as stated, fails: with segments of 128 bytes at offsets 0 (free), 128
    and 256 (both in use), releasing the handle 152 of the segment at 128 and
    then asking for 50 bytes, which fit in the 128 bytes just released,
    returns payload offset 24 and not 152. *)
Lemma C8_counterexample :
  reachable 4096 st_gap ((∅ ∪ {[24]} ∪ {[152]} ∪ {[280]}) ∖ {[24]}) /\
  152 ∈ ((∅ ∪ {[24]} ∪ {[152]} ∪ {[280]}) ∖ {[24]} : gset Z) /\
  align_value (int_add hdr_size 50) 8 <= seg_size (rd (mem st_gap) (152 - hdr_size)) /\
  exists s1 st s2,
    sfree (Z.to_nat 4097) (Some 152) st_gap = Some s1 /\
    smalloc (Z.to_nat 4097) 50 s1 = Some (Some 24, st, s2) /\
    payload_offset st = 24 /\ 24 <> 152.
Proof.
  split; [apply reach_st_gap |]. split; [set_solver |].
  split; [vm_compute; congruence |].
  eexists _, _, _. split; [vm_compute; reflexivity |].
  split; [vm_compute; reflexivity |]. split; [reflexivity | lia].
Qed.

(** C8, amended. In a reachable state let [p] be a handle in use, and let
    the request [x] fit in [p]'s segment.  If every free segment at a lower
    address is too small for [x] and does not end where [p]'s segment
    starts, then [sfree p] followed at once by [smalloc x] returns [p] again,
    with the payload offset [p] had. *)
Theorem C8_free_then_alloc_reuses region_size s live p x fuel F :
  reachable region_size s live -> p ∈ live -> payload_ok x -> enough s fuel ->
  align_value (int_add hdr_size x) 8 <= seg_size (rd (mem s) (p - hdr_size)) ->
  free_list s F ->
  (forall y, y ∈ F -> y < p - hdr_size ->
     seg_size (rd (mem s) y) < align_value (int_add hdr_size x) 8 /\
     y + seg_size (rd (mem s) y) <> p - hdr_size) ->
  exists s1 st s2,
    sfree fuel (Some p) s = Some s1 /\
    smalloc fuel x s1 = Some (Some p, st, s2) /\
    payload_offset st = p.
Proof.
  intros Hr Hp Hx Hf Hfit HF Hlow.
  destruct (reachable_rep _ _ _ Hr) as (L & HR & _).
  pose proof (rep_wf _ _ _ HR) as HW.
  apply (wf_free_list_eq _ _ HW) in HF. subst F.
  destruct (sfree_rep fuel s L live p HR Hp Hf)
    as (L1 & S & L2 & s1 & -> & Hs1 & [HW1 _ _] & Ht1 & _).
  set (a := p - hdr_size) in *.
  pose proof (wf_chain _ _ HW) as Hc.
  pose proof (wf_agree _ _ HW) as Hag.
  destruct (chain_split _ _ _ _ _ Hc) as (H1 & _). simpl in H1.
  apply agree_app in Hag as [Hag1 Hag]. apply agree_cons in Hag as [[HaS _] _].
  simpl in HaS. rewrite HaS in Hfit.
  assert (Hlow1 : forall y, y ∈ L1 -> a_used y = false ->
            a_size y < required x /\ a_addr y + a_size y <> a).
  { intros y Hy Hu. destruct (Hag1 y Hy) as [<- _]. apply Hlow.
    - rewrite frees_app. apply elem_of_app. left. apply elem_of_frees. by exists y.
    - destruct (H1 y Hy) as (_ & ? & ?). ar. }
  assert (Hlast : lastu L1 = true).
  { destruct (snoc_cases L1) as [-> | (G & y & ->)]; [done |].
    rewrite lastu_snoc. destruct (a_used y) eqn:E; [done |].
    destruct (Hlow1 y) as [_ Hne]; [apply elem_of_app; right; left | done |].
    rewrite <- app_assoc in Hc. apply chain_app in Hc as [_ (Hy & _ & _ & Ha & _)].
    simpl in Hy, Ha. lia. }
  unfold free_abs in HW1. rewrite merge_prev_lastu in HW1 by done.
  assert (HS' : S <= fst (merge_next S L2)).
  { apply chain_app in Hc as [_ Hc]. apply (chain_flag _ [] _ _ _ false) in Hc.
    by eapply merge_next_size. }
  assert (Hf1 : enough s1 fuel) by (unfold enough in *; by rewrite Ht1).
  destruct (smalloc_wf fuel s1 L1 a _ _ x HW1) as (s2 & Hs2 & _); try done.
  { intros y Hy Hu. by apply Hlow1. }
  { fold (required x) in Hfit. lia. }
  replace (a + hdr_size) with p in Hs2 by (unfold a; lia).
  eexists s1, _, s2. split; [done |]. split; [exact Hs2 | done].
Qed.

Lemma C8_witness :
  exists s1 st s2,
    sfree (Z.to_nat 4097) (Some 24) st_one = Some s1 /\
    smalloc (Z.to_nat 4097) 50 s1 = Some (Some 24, st, s2) /\
    payload_offset st = 24.
Proof.
  apply (C8_free_then_alloc_reuses 4096 st_one (∅ ∪ {[24]}) 24 50 (Z.to_nat 4097) [128]).
  - apply reach_st_one.
  - set_solver.
  - apply payload_ok_small. lia.
  - apply enough_4097. reflexivity.
  - vm_compute. congruence.
  - vm_compute. auto.
  - intros y Hy. apply list_elem_of_singleton in Hy as ->. unfold hdr_size. lia.
Defined.




(** C10. [smalloc 0] is accepted: in a reachable state whose free list holds
    a segment of size at least [align_value hdr_size 8], it returns a
    non-null pointer with [success = 1] and marks the segment under it in
    use; whenever that segment is split, its size becomes exactly
    [align_value hdr_size 8]. *)
Theorem C10_zero_payload_accepted region_size s live fuel F x :
  reachable region_size s live -> enough s fuel ->
  free_list s F -> x ∈ F -> align_value hdr_size 8 <= seg_size (rd (mem s) x) ->
  exists p st s',
    smalloc fuel 0 s = Some (Some p, st, s') /\
    success st = 1 /\
    in_use (rd (mem s') (p - hdr_size)) = 1 /\
    (hdr_size <= seg_size (rd (mem s) (p - hdr_size)) - align_value hdr_size 8 ->
     seg_size (rd (mem s') (p - hdr_size)) = align_value hdr_size 8).
Proof.
  intros Hr Hf HF Hx Hfit.
  assert (Hn : payload_ok 0) by (apply payload_ok_small; lia).
  assert (HR0 : required 0 = align_value hdr_size 8) by reflexivity.
  destruct (reachable_rep _ _ _ Hr) as (L & HR & _).
  pose proof (rep_wf _ _ _ HR) as HW.
  apply (wf_free_list_eq _ _ HW) in HF. subst F.
  destruct (smalloc_rep fuel s L live 0 HR Hn Hf)
    as [[Hsm _] | (L1 & a & S & L2 & s' & -> & HRS & _ & Hs' & [HW' _ _] & _)].
  - apply elem_of_frees in Hx as (y & Hy & Hu & <-).
    destruct (wf_agree _ _ HW y Hy) as [Hsz _]. specialize (Hsm y Hy Hu). lia.
  - exists (a + hdr_size), (MallocStatus 1 (a + hdr_size) (Z.of_nat (length (frees L1)))), s'.
    split; [done |]. split; [done |].
    replace (a + hdr_size - hdr_size) with a by lia.
    pose proof (wf_agree _ _ HW) as Hag.
    apply agree_app in Hag as [_ Hag]. apply agree_cons in Hag as [[HaS _] _].
    simpl in HaS. rewrite HaS, <- HR0.
    pose proof (wf_agree _ _ HW') as Hag'. unfold alloc_abs in Hag'.
    destruct (Z.leb_spec hdr_size (S - required 0)) as [Hsp | Hsp];
      apply agree_app in Hag' as [_ Hag']; apply agree_cons in Hag' as [[Hsa Hua] _];
      simpl in Hsa, Hua; split; try done; lia.
Qed.

Lemma C10_witness :
  exists p st s',
    smalloc (Z.to_nat 4097) 0 st_init = Some (Some p, st, s') /\
    success st = 1 /\
    in_use (rd (mem s') (p - hdr_size)) = 1 /\
    (hdr_size <= seg_size (rd (mem st_init) (p - hdr_size)) - align_value hdr_size 8 ->
     seg_size (rd (mem s') (p - hdr_size)) = align_value hdr_size 8).
Proof.
  apply (C10_zero_payload_accepted 4096 st_init ∅ (Z.to_nat 4097) [0] 0).
  - apply reach_st_init.
  - apply enough_4097. reflexivity.
  - vm_compute. auto.
  - left.
  - vm_compute. congruence.
Defined.

(** * Further properties of the code *)

(** ** [align_value] *)

(** X1. Where nothing overflows, [align_value n k] is the least multiple of
    [k] that is not below [n]; a multiple of [k] is left as it is. *)
Theorem X1_align_value_least_multiple (n k : Z) :
  0 < k -> 0 <= n -> n + k <= int_max ->
  align_value n k mod k = 0 /\
  n <= align_value n k /\
  (forall m, m mod k = 0 -> n <= m -> align_value n k <= m) /\
  (n mod k = 0 -> align_value n k = n).
Proof.
  intros Hk Hn Hmax.
  destruct (align_value_bounds n k Hk Hn Hmax) as [[Hlo Hhi] Hmod].
  assert (Hleast : forall m, m mod k = 0 -> n <= m -> align_value n k <= m).
  { intros m Hm Hnm.
    apply Z.mod_divide in Hm; [|lia]. destruct Hm as [q ->].
    apply Z.mod_divide in Hmod; [|lia]. destruct Hmod as [q' Hq'].
    rewrite Hq' in *.
    assert (q' <= q) by (apply Z.lt_succ_r, (Z.mul_lt_mono_pos_r k); lia).
    apply Z.mul_le_mono_nonneg_r; lia. }
  repeat split; try done.
  intros Hnk. specialize (Hleast n Hnk ltac:(lia)). lia.
Qed.

Lemma X1_witness :
  align_value 100 8 mod 8 = 0 /\
  100 <= align_value 100 8 /\
  (forall m, m mod 8 = 0 -> 100 <= m -> align_value 100 8 <= m) /\
  (100 mod 8 = 0 -> align_value 100 8 = 100).
Proof.
  apply (X1_align_value_least_multiple 100 8); unfold int_max; lia.
Defined.

(** ** [my_init] *)

(** X2. A successful [my_init], whatever the state before it, returns 0 and
    leaves a region whose size is [region_size] rounded up to the next
    multiple of 4096, tiled by one free segment at offset 0 that is the only
    entry of the free list and has no links. *)
Theorem X2_my_init_fresh_region (region_size : Z) (s0 : state) :
  0 < region_size <= int_max - 4096 ->
  let s := snd (my_init region_size Mapped s0) in
  fst (my_init region_size Mapped s0) = 0 /\
  base_address s = Some 0 /\
  total_region s mod 4096 = 0 /\
  region_size <= total_region s < region_size + 4096 /\
  segments s [0] /\ free_list s [0] /\
  rd (mem s) 0 = MemSeg (total_region s) 0 None None.
Proof.
  intros Hr. simpl.
  destruct (align_value_bounds region_size 4096) as [Hb Hmod]; [lia | lia | lia |].
  unfold segments, free_list. simpl. rewrite rd_wr, decide_True by done. simpl.
  repeat split; try done; lia.
Qed.

Lemma X2_witness :
  let s := snd (my_init 5000 Mapped st_one) in
  fst (my_init 5000 Mapped st_one) = 0 /\
  base_address s = Some 0 /\
  total_region s mod 4096 = 0 /\
  5000 <= total_region s < 5000 + 4096 /\
  segments s [0] /\ free_list s [0] /\
  rd (mem s) 0 = MemSeg (total_region s) 0 None None.
Proof.
  apply (X2_my_init_fresh_region 5000 st_one). unfold int_max. lia.
Defined.

(** X3. A failed [my_init] returns -1.  When [open] fails the state is
    untouched.  When [mmap] fails on the first call, [base_address] holds
    [MAP_FAILED] and is not [NULL], yet [smalloc] still fails with the
    sentinel status and changes nothing, because the free list is empty. *)
Theorem X3_my_init_failure (region_size n : Z) (fuel : nat) (s0 : state) :
  my_init region_size OpenFails s0 = (-1, s0) /\
  fst (my_init region_size MmapFails s0) = -1 /\
  let s := snd (my_init region_size MmapFails initial_state) in
  base_address s = Some MAP_FAILED /\
  smalloc (S fuel) n s = Some (None, MallocStatus 0 (-1) (-1), s).
Proof. repeat split. Qed.

(** ** Segments and handles in reachable states *)

Lemma chain_two a0 L e x y :
  chain a0 L e -> x ∈ L -> y ∈ L ->
  x = y \/ a_addr x + a_size x <= a_addr y \/ a_addr y + a_size y <= a_addr x.
Proof.
  intros Hc Hx Hy. apply list_elem_of_split in Hx as (L1 & L2 & ->).
  destruct (chain_split _ _ _ _ _ Hc) as (H1 & H2 & _).
  apply elem_of_app in Hy as [Hy | Hy].
  - right. right. by destruct (H1 y Hy) as (_ & ? & _).
  - apply elem_of_cons in Hy as [-> | Hy]; [by left |].
    right. left. by destruct (H2 y Hy) as (? & _).
Qed.

Lemma chain_addr_inj a0 L e x y :
  chain a0 L e -> x ∈ L -> y ∈ L -> a_addr x = a_addr y -> x = y.
Proof.
  intros Hc Hx Hy E.
  destruct (chain_elem _ _ _ _ Hc Hx) as (_ & _ & ? & _).
  destruct (chain_elem _ _ _ _ Hc Hy) as (_ & _ & ? & _).
  destruct (chain_two _ _ _ _ _ Hc Hx Hy) as [? | [? | ?]]; [done | ar | ar].
Qed.

Lemma elem_of_map_addr (L : list aseg) (x : Z) :
  x ∈ map a_addr L <-> exists y, y ∈ L /\ a_addr y = x.
Proof.
  induction L as [|z L IH]; simpl.
  - split; [intros H; inversion H | intros (y & H & _); inversion H].
  - rewrite elem_of_cons, IH. split.
    + intros [-> | (y & Hy & <-)]; [exists z; split; [left | done] |].
      exists y. split; [by right | done].
    + intros (y & Hy & <-). apply elem_of_cons in Hy as [-> | Hy]; [by left |].
      right. by exists y.
Qed.

Lemma rep_live_seg s L live p :
  Rep s L live -> p ∈ live ->
  exists sz, ASeg (p - hdr_size) sz true ∈ L /\
             seg_size (rd (mem s) (p - hdr_size)) = sz /\
             in_use (rd (mem s) (p - hdr_size)) = 1.
Proof.
  intros [HW _ Hl] Hp. apply Hl in Hp as (sz & Hin).
  exists sz. split; [done |]. by destruct (wf_agree _ _ HW _ Hin) as [? ?].
Qed.

(** X4. In a reachable state the handles in use are exactly the payloads of
    the segments marked in use; such a segment lies inside the region, and
    the segments of two different handles do not overlap. *)
Theorem X4_live_segments_disjoint region_size s live L :
  reachable region_size s live -> segments s L ->
  (forall p, p ∈ live <-> (p - hdr_size ∈ L /\ in_use (rd (mem s) (p - hdr_size)) = 1)) /\
  (forall p, p ∈ live ->
     0 <= p - hdr_size /\
     p - hdr_size + seg_size (rd (mem s) (p - hdr_size)) <= total_region s) /\
  (forall p q, p ∈ live -> q ∈ live -> p <> q ->
     p - hdr_size + seg_size (rd (mem s) (p - hdr_size)) <= q - hdr_size \/
     q - hdr_size + seg_size (rd (mem s) (q - hdr_size)) <= p - hdr_size).
Proof.
  intros Hr Hseg. destruct (reachable_rep _ _ _ Hr) as (K & HR & _).
  pose proof (rep_wf _ _ _ HR) as HW.
  apply (wf_segments_eq _ _ HW) in Hseg. subst L.
  pose proof (wf_chain _ _ HW) as Hc.
  split; [|split].
  - intros p. split.
    + intros Hp. destruct (rep_live_seg _ _ _ _ HR Hp) as (sz & Hin & _ & Hu).
      split; [|done]. apply elem_of_map_addr. by eexists.
    + intros [Hin Hu]. apply elem_of_map_addr in Hin as ([a sz u] & Hy & Ha).
      simpl in Ha. subst a.
      destruct (wf_agree _ _ HW _ Hy) as [_ Hu']. simpl in Hu'.
      destruct u; [|congruence]. apply (rep_live _ _ _ HR). by exists sz.
  - intros p Hp. destruct (rep_live_seg _ _ _ _ HR Hp) as (sz & Hin & -> & _).
    destruct (chain_elem _ _ _ _ Hc Hin) as (? & ? & _). done.
  - intros p q Hp Hq Hne.
    destruct (rep_live_seg _ _ _ _ HR Hp) as (sp & Hinp & -> & _).
    destruct (rep_live_seg _ _ _ _ HR Hq) as (sq & Hinq & -> & _).
    destruct (chain_two _ _ _ _ _ Hc Hinp Hinq) as [E | [? | ?]]; [|by left | by right].
    injection E as E _. lia.
Qed.

Lemma X4_witness :
  (forall p, p ∈ ((∅ ∪ {[24]} ∪ {[152]} ∪ {[280]}) ∖ {[24]} : gset Z) <->
     (p - hdr_size ∈ [0; 128; 256; 384] /\ in_use (rd (mem st_gap) (p - hdr_size)) = 1)) /\
  (forall p, p ∈ ((∅ ∪ {[24]} ∪ {[152]} ∪ {[280]}) ∖ {[24]} : gset Z) ->
     0 <= p - hdr_size /\
     p - hdr_size + seg_size (rd (mem st_gap) (p - hdr_size)) <= total_region st_gap) /\
  (forall p q, p ∈ ((∅ ∪ {[24]} ∪ {[152]} ∪ {[280]}) ∖ {[24]} : gset Z) ->
     q ∈ ((∅ ∪ {[24]} ∪ {[152]} ∪ {[280]}) ∖ {[24]} : gset Z) -> p <> q ->
     p - hdr_size + seg_size (rd (mem st_gap) (p - hdr_size)) <= q - hdr_size \/
     q - hdr_size + seg_size (rd (mem st_gap) (q - hdr_size)) <= p - hdr_size).
Proof.
  apply (X4_live_segments_disjoint 4096 st_gap _ [0; 128; 256; 384] reach_st_gap).
  vm_compute. repeat split; reflexivity.
Defined.

(** X5. Every segment of a reachable state starts at a multiple of 8 inside
    the region, has a size that is a multiple of 8 and covers at least a
    header, ends inside the region, and carries an [in_use] flag of 0 or
    1. *)
Theorem X5_segment_shape region_size s live L x :
  reachable region_size s live -> segments s L -> x ∈ L ->
  0 <= x /\ x mod 8 = 0 /\
  hdr_size <= seg_size (rd (mem s) x) /\ seg_size (rd (mem s) x) mod 8 = 0 /\
  x + seg_size (rd (mem s) x) <= total_region s /\
  (in_use (rd (mem s) x) = 0 \/ in_use (rd (mem s) x) = 1).
Proof.
  intros Hr Hseg Hx. destruct (reachable_rep _ _ _ Hr) as (K & HR & _).
  pose proof (rep_wf _ _ _ HR) as HW.
  apply (wf_segments_eq _ _ HW) in Hseg. subst L.
  pose proof (wf_chain _ _ HW) as Hc.
  apply elem_of_map_addr in Hx as (y & Hy & <-).
  destruct (wf_agree _ _ HW _ Hy) as [-> ->].
  destruct (chain_elem _ _ _ _ Hc Hy) as (? & ? & ? & ?).
  pose proof (chain_aligned _ _ _ _ Hc eq_refl Hy).
  repeat split; try done. destruct (a_used y); auto.
Qed.

Lemma X5_witness :
  0 <= 384 /\ 384 mod 8 = 0 /\
  hdr_size <= seg_size (rd (mem st_gap) 384) /\ seg_size (rd (mem st_gap) 384) mod 8 = 0 /\
  384 + seg_size (rd (mem st_gap) 384) <= total_region st_gap /\
  (in_use (rd (mem st_gap) 384) = 0 \/ in_use (rd (mem st_gap) 384) = 1).
Proof.
  apply (X5_segment_shape 4096 st_gap _ [0; 128; 256; 384] 384 reach_st_gap).
  - vm_compute. repeat split; reflexivity.
  - set_solver.
Defined.

(** X6. In a reachable state the free list holds exactly the segments whose
    [in_use] flag is 0. *)
Theorem X6_free_list_is_free_segments region_size s live L F x :
  reachable region_size s live -> segments s L -> free_list s F ->
  x ∈ F <-> (x ∈ L /\ in_use (rd (mem s) x) = 0).
Proof.
  intros Hr Hseg HF. destruct (reachable_rep _ _ _ Hr) as (K & HR & _).
  pose proof (rep_wf _ _ _ HR) as HW.
  apply (wf_segments_eq _ _ HW) in Hseg. apply (wf_free_list_eq _ _ HW) in HF. subst L F.
  rewrite elem_of_frees, elem_of_map_addr. split.
  - intros (y & Hy & Hu & <-). split; [by exists y |].
    destruct (wf_agree _ _ HW _ Hy) as [_ ->]. by rewrite Hu.
  - intros [(y & Hy & <-) Hu]. exists y. split; [done |]. split; [|done].
    destruct (wf_agree _ _ HW _ Hy) as [_ Hu']. rewrite Hu in Hu'.
    by destruct (a_used y).
Qed.

Lemma X6_witness :
  384 ∈ [0; 384] <-> (384 ∈ [0; 128; 256; 384] /\ in_use (rd (mem st_gap) 384) = 0).
Proof.
  apply (X6_free_list_is_free_segments 4096 st_gap _ [0; 128; 256; 384] [0; 384] 384
           reach_st_gap).
  - vm_compute. repeat split; reflexivity.
  - vm_compute. repeat split; reflexivity.
Defined.

Lemma all_free_coalesced (L : list aseg) :
  (forall x, x ∈ L -> a_used x = false) -> coalesced L ->
  L = [] \/ exists x, L = [x].
Proof.
  destruct L as [|x [|y L]]; [by left | right; by exists x |].
  intros Hall Hc. apply coalesced_cons in Hc as [[Hx | Hy] _].
  - rewrite (Hall x) in Hx; [done | left].
  - simpl in Hy. rewrite (Hall y) in Hy; [done | right; left].
Qed.

(** X7. When every handle has been released, in whatever order, the region
    of a reachable state is again one free segment that spans it and is the
    only entry of the free list. *)
Theorem X7_all_released_one_segment region_size s live :
  reachable region_size s live -> (forall p, p ∉ live) ->
  segments s [0] /\ free_list s [0] /\
  seg_size (rd (mem s) 0) = total_region s /\ in_use (rd (mem s) 0) = 0.
Proof.
  intros Hr Hempty. destruct (reachable_rep _ _ _ Hr) as (L & HR & _).
  pose proof (rep_wf _ _ _ HR) as HW.
  pose proof (wf_chain _ _ HW) as Hc. pose proof (wf_total _ _ HW) as Ht.
  assert (Hall : forall x, x ∈ L -> a_used x = false).
  { intros [a sz u] Hx. destruct u; [|done]. exfalso.
    apply (Hempty (a + hdr_size)), (rep_live _ _ _ HR). exists sz.
    by replace (a + hdr_size - hdr_size) with a by lia. }
  destruct (all_free_coalesced L Hall (rep_coal _ _ _ HR)) as [-> | ([a sz u] & ->)].
  - simpl in Hc. lia.
  - pose proof (Hall _ ltac:(left)) as Hu. simpl in Hu. subst u.
    destruct Hc as (Ha & _ & _ & He). simpl in Ha, He. subst a.
    destruct (wf_agree _ _ HW (ASeg 0 sz false) ltac:(left)) as [Hsz Hu]. simpl in Hsz, Hu.
    pose proof (wf_segments _ _ HW) as Hseg. pose proof (wf_free_list _ _ HW) as Hfl.
    simpl in Hseg, Hfl. split; [done |]. split; [done |]. split; [lia | done].
Qed.

Lemma X7_witness :
  segments (run_sfree 24 st_one) [0] /\ free_list (run_sfree 24 st_one) [0] /\
  seg_size (rd (mem (run_sfree 24 st_one)) 0) = total_region (run_sfree 24 st_one) /\
  in_use (rd (mem (run_sfree 24 st_one)) 0) = 0.
Proof.
  apply (X7_all_released_one_segment 4096 (run_sfree 24 st_one) ((∅ ∪ {[24]}) ∖ {[24]})).
  - apply (reach_free 4096 st_one _ (Z.to_nat 4097) 24 _ reach_st_one); [set_solver |].
    vm_compute. reflexivity.
  - intros p Hp. apply elem_of_difference in Hp as [Hp Hn].
    apply elem_of_union in Hp as [Hp | Hp]; [by apply elem_of_empty in Hp | done].
Defined.

(** X8. First fit.  When [smalloc n], with [n] in range
    ([0 <= n <= INT_MAX - hdr_size - 8]), succeeds in a reachable state, the
    segment under the returned pointer was a free-list entry large enough for
    the aligned request, every entry before it lies at a lower address and
    was too small, and [hops] is the number of those entries. *)
Theorem X8_first_fit_lowest_address region_size s live n fuel p st s' F :
  reachable region_size s live -> payload_ok n ->
  smalloc fuel n s = Some (Some p, st, s') -> free_list s F ->
  exists F1 F2,
    F = F1 ++ (p - hdr_size) :: F2 /\
    align_value (int_add hdr_size n) 8 <= seg_size (rd (mem s) (p - hdr_size)) /\
    (forall y, y ∈ F1 ->
       y < p - hdr_size /\ seg_size (rd (mem s) y) < align_value (int_add hdr_size n) 8) /\
    (forall y, y ∈ F2 -> p - hdr_size < y) /\
    hops st = Z.of_nat (length F1).
Proof.
  intros Hr Hn Hs HF. destruct (reachable_rep _ _ _ Hr) as (L & HR & _).
  pose proof (rep_wf _ _ _ HR) as HW.
  apply (wf_free_list_eq _ _ HW) in HF. subst F.
  apply (smalloc_mono _ (Nat.max fuel (S (Z.to_nat (total_region s))))) in Hs; [|lia].
  destruct (smalloc_rep _ s L live n HR Hn (enough_max s fuel))
    as [[_ Hs'] | (L1 & a & Sa & L2 & s2 & -> & HRS & Hsm & Hs' & _ & _)];
    rewrite Hs' in Hs; [done |].
  injection Hs as <- <- <-.
  replace (a + hdr_size - hdr_size) with a by lia.
  pose proof (wf_agree _ _ HW) as Hag.
  destruct (chain_split _ _ _ _ _ (wf_chain _ _ HW)) as (H1 & H2 & _ & _ & HS & _).
  simpl in H1, H2, HS.
  apply agree_app in Hag as [Hag1 Hag]. apply agree_cons in Hag as [[HaS _] Hag2].
  simpl in HaS.
  exists (frees L1), (frees L2). rewrite frees_app. simpl.
  split; [done |]. split; [by rewrite HaS |]. split; [|split; [|done]].
  - intros y Hy. apply elem_of_frees in Hy as (z & Hz & Hu & <-).
    destruct (H1 z Hz) as (_ & ? & ?). destruct (Hag1 z Hz) as [-> _].
    split; [ar | by apply Hsm].
  - intros y Hy. apply elem_of_frees in Hy as (z & Hz & Hu & <-).
    destruct (H2 z Hz) as (? & _). ar.
Qed.

Lemma X8_witness :
  exists F1 F2,
    [0; 384] = F1 ++ (408 - hdr_size) :: F2 /\
    align_value (int_add hdr_size 200) 8 <= seg_size (rd (mem st_gap) (408 - hdr_size)) /\
    (forall y, y ∈ F1 ->
       y < 408 - hdr_size /\
       seg_size (rd (mem st_gap) y) < align_value (int_add hdr_size 200) 8) /\
    (forall y, y ∈ F2 -> 408 - hdr_size < y) /\
    hops (MallocStatus 1 408 1) = Z.of_nat (length F1).
Proof.
  apply (X8_first_fit_lowest_address 4096 st_gap _ 200 (Z.to_nat 4097) 408
           (MallocStatus 1 408 1) (run_smalloc 200 st_gap) [0; 384] reach_st_gap).
  - apply payload_ok_small. lia.
  - vm_compute. reflexivity.
  - vm_compute. repeat split; reflexivity.
Defined.

(** X9. [smalloc] never fails while something fits: for [n] in range
    ([0 <= n <= INT_MAX - hdr_size - 8]) in a reachable state it returns,
    and it returns [NULL] exactly when no free-list entry is large enough
    for the aligned request; then the status is the sentinel and the state
    is unchanged. *)
Theorem X9_fails_only_when_nothing_fits region_size s live n fuel F :
  reachable region_size s live -> payload_ok n -> enough s fuel -> free_list s F ->
  exists r st s',
    smalloc fuel n s = Some (r, st, s') /\
    (r = None <->
     forall x, x ∈ F -> seg_size (rd (mem s) x) < align_value (int_add hdr_size n) 8) /\
    (r = None -> st = MallocStatus 0 (-1) (-1) /\ s' = s).
Proof.
  intros Hr Hn Hf HF. destruct (reachable_rep _ _ _ Hr) as (L & HR & _).
  pose proof (rep_wf _ _ _ HR) as HW.
  apply (wf_free_list_eq _ _ HW) in HF. subst F.
  destruct (smalloc_rep _ s L live n HR Hn Hf)
    as [[Hsm Hs'] | (L1 & a & Sa & L2 & s2 & -> & HRS & Hsm & Hs' & _ & _)].
  - eexists _, _, _. split; [exact Hs' |]. split; [|done].
    split; [|done]. intros _ x Hx.
    apply elem_of_frees in Hx as (y & Hy & Hu & <-).
    destruct (wf_agree _ _ HW _ Hy) as [-> _]. by apply Hsm.
  - eexists _, _, _. split; [exact Hs' |]. split; [|done].
    split; [done |]. intros Hall. exfalso.
    destruct (wf_agree _ _ HW (ASeg a Sa false)) as [HaS _];
      [apply elem_of_app; right; left |]. simpl in HaS.
    specialize (Hall a). rewrite HaS in Hall. fold (required n) in Hall.
    assert (Sa < required n); [|lia].
    apply Hall. rewrite frees_app. apply elem_of_app. right. left.
Qed.

Lemma X9_witness :
  exists r st s',
    smalloc (Z.to_nat 4097) 3700 st_gap = Some (r, st, s') /\
    (r = None <->
     forall x, x ∈ [0; 384] ->
       seg_size (rd (mem st_gap) x) < align_value (int_add hdr_size 3700) 8) /\
    (r = None -> st = MallocStatus 0 (-1) (-1) /\ s' = st_gap).
Proof.
  apply (X9_fails_only_when_nothing_fits 4096 st_gap _ 3700 (Z.to_nat 4097) [0; 384]
           reach_st_gap).
  - apply payload_ok_small. lia.
  - apply enough_4097. reflexivity.
  - vm_compute. repeat split; reflexivity.
Defined.

(** X10. A successful [smalloc n], with [n] in range
    ([0 <= n <= INT_MAX - hdr_size - 8]), in a reachable state returns a pointer that
    was not in use; the segment under it is marked in use and has room for
    the header and the [n] payload bytes, with less than a header of slack
    beyond the aligned request; the headers of all other handles in use
    keep their size and stay in use. *)
Theorem X10_alloc_fresh_and_frames region_size s live n fuel p st s' :
  reachable region_size s live -> payload_ok n ->
  smalloc fuel n s = Some (Some p, st, s') ->
  (p ∉ live) /\
  in_use (rd (mem s') (p - hdr_size)) = 1 /\
  hdr_size + n <= seg_size (rd (mem s') (p - hdr_size)) /\
  seg_size (rd (mem s') (p - hdr_size)) < align_value (int_add hdr_size n) 8 + hdr_size /\
  (forall q, q ∈ live ->
     seg_size (rd (mem s') (q - hdr_size)) = seg_size (rd (mem s) (q - hdr_size)) /\
     in_use (rd (mem s') (q - hdr_size)) = 1).
Proof.
  intros Hr Hn Hs. destruct (reachable_rep _ _ _ Hr) as (L & HR & _).
  pose proof (rep_wf _ _ _ HR) as HW.
  apply (smalloc_mono _ (Nat.max fuel (S (Z.to_nat (total_region s))))) in Hs; [|lia].
  destruct (smalloc_rep _ s L live n HR Hn (enough_max s fuel))
    as [[_ Hs'] | (L1 & a & Sa & L2 & s2 & -> & HRS & _ & Hs' & HR' & _)];
    rewrite Hs' in Hs; [done |].
  injection Hs as <- <- <-.
  replace (a + hdr_size - hdr_size) with a by lia.
  pose proof (rep_wf _ _ _ HR') as HW'.
  pose proof (wf_chain _ _ HW) as Hc.
  destruct (required_bounds n Hn) as [[HRlo _] _]. fold (required n).
  assert (Hin0 : ASeg a (if hdr_size <=? Sa - required n then required n else Sa) true
                   ∈ alloc_abs (required n) L1 a Sa L2).
  { apply alloc_abs_used; [done | auto]. }
  destruct (wf_agree _ _ HW' _ Hin0) as [Hsz Hu]. simpl in Hsz, Hu.
  split; [|split; [|split; [|split]]].
  - intros Hp. destruct (rep_live_seg _ _ _ _ HR Hp) as (sz & Hin & _).
    replace (a + hdr_size - hdr_size) with a in Hin by lia.
    assert (E : ASeg a sz true = ASeg a Sa false); [|done].
    apply (chain_addr_inj _ _ _ _ _ Hc Hin); [|done].
    apply elem_of_app. right. left.
  - done.
  - rewrite Hsz. destruct (hdr_size <=? Sa - required n); lia.
  - rewrite Hsz. destruct (Z.leb_spec hdr_size (Sa - required n)); ar.
  - intros q Hq. destruct (rep_live_seg _ _ _ _ HR Hq) as (sz & Hin & -> & _).
    assert (Hin' : ASeg (q - hdr_size) sz true ∈ alloc_abs (required n) L1 a Sa L2).
    { apply alloc_abs_used; [done |].
      apply elem_of_app in Hin as [? | Hin]; [auto |].
      apply elem_of_cons in Hin as [? | ?]; [done | auto]. }
    by destruct (wf_agree _ _ HW' _ Hin') as [? ?].
Qed.

Lemma X10_witness :
  (408 ∉ ((∅ ∪ {[24]} ∪ {[152]} ∪ {[280]}) ∖ {[24]} : gset Z)) /\
  in_use (rd (mem (run_smalloc 200 st_gap)) (408 - hdr_size)) = 1 /\
  hdr_size + 200 <= seg_size (rd (mem (run_smalloc 200 st_gap)) (408 - hdr_size)) /\
  seg_size (rd (mem (run_smalloc 200 st_gap)) (408 - hdr_size))
    < align_value (int_add hdr_size 200) 8 + hdr_size /\
  (forall q, q ∈ ((∅ ∪ {[24]} ∪ {[152]} ∪ {[280]}) ∖ {[24]} : gset Z) ->
     seg_size (rd (mem (run_smalloc 200 st_gap)) (q - hdr_size)) =
       seg_size (rd (mem st_gap) (q - hdr_size)) /\
     in_use (rd (mem (run_smalloc 200 st_gap)) (q - hdr_size)) = 1).
Proof.
  apply (X10_alloc_fresh_and_frames 4096 st_gap _ 200 (Z.to_nat 4097) 408
           (MallocStatus 1 408 1) (run_smalloc 200 st_gap) reach_st_gap).
  - apply payload_ok_small. lia.
  - vm_compute. reflexivity.
Defined.

Lemma free_abs_cover a0 L1 a S L2 e :
  chain a0 (L1 ++ ASeg a S true :: L2) e ->
  exists b Sb, ASeg b Sb false ∈ free_abs L1 a S L2 /\ b <= a /\ a + S <= b + Sb.
Proof.
  intros Hc. unfold free_abs.
  assert (HS' : S <= fst (merge_next S L2)).
  { apply chain_app in Hc as [_ Hc]. apply (chain_flag _ [] _ _ _ false) in Hc.
    by eapply merge_next_size. }
  destruct (snoc_cases L1) as [-> | (G & [b Sb ub] & ->)].
  - eexists _, _. split; [left |]. lia.
  - rewrite merge_prev_snoc. simpl.
    rewrite <- app_assoc in Hc. apply chain_app in Hc as [_ (Hb & HSb & _ & Ha & _)].
    simpl in Hb, HSb, Ha.
    destruct ub.
    + eexists _, _. split; [apply elem_of_app; right; right; left |]. lia.
    + eexists _, _. split; [apply elem_of_app; right; left |]. ar.
Qed.

(** X11. [sfree] of a handle in use, in a reachable state, leaves the headers
    of all other handles in use as they were, and afterwards one entry of
    the free list covers the whole range of the released segment. *)
Theorem X11_free_covers_and_frames region_size s live p fuel :
  reachable region_size s live -> p ∈ live -> enough s fuel ->
  exists s' F' x,
    sfree fuel (Some p) s = Some s' /\
    free_list s' F' /\ x ∈ F' /\
    x <= p - hdr_size /\
    p - hdr_size + seg_size (rd (mem s) (p - hdr_size)) <= x + seg_size (rd (mem s') x) /\
    (forall q, q ∈ live -> q <> p ->
       seg_size (rd (mem s') (q - hdr_size)) = seg_size (rd (mem s) (q - hdr_size)) /\
       in_use (rd (mem s') (q - hdr_size)) = 1).
Proof.
  intros Hr Hp Hf. destruct (reachable_rep _ _ _ Hr) as (L & HR & _).
  pose proof (rep_wf _ _ _ HR) as HW.
  destruct (sfree_rep fuel s L live p HR Hp Hf)
    as (L1 & S & L2 & s' & -> & Hs' & HR' & _ & _).
  pose proof (rep_wf _ _ _ HR') as HW'.
  pose proof (wf_chain _ _ HW) as Hc.
  destruct (free_abs_cover _ _ _ _ _ _ Hc) as (b & Sb & Hin & Hlo & Hhi).
  destruct (wf_agree _ _ HW (ASeg (p - hdr_size) S true)) as [HpS _];
    [apply elem_of_app; right; left |]. simpl in HpS.
  destruct (wf_agree _ _ HW' _ Hin) as [HbS _]. simpl in HbS.
  exists s', (frees (free_abs L1 (p - hdr_size) S L2)), b.
  split; [done |]. split; [by apply wf_free_list |].
  split; [apply elem_of_frees; by eexists |].
  split; [done |]. split; [lia |].
  intros q Hq Hne. destruct (rep_live_seg _ _ _ _ HR Hq) as (sz & Hinq & -> & _).
  assert (Hin' : ASeg (q - hdr_size) sz true ∈ free_abs L1 (p - hdr_size) S L2).
  { apply free_abs_used; [done |].
    apply elem_of_app in Hinq as [? | Hinq]; [auto |].
    apply elem_of_cons in Hinq as [E | ?]; [|auto].
    injection E as E _. lia. }
  by destruct (wf_agree _ _ HW' _ Hin') as [? ?].
Qed.

Lemma X11_witness :
  exists s' F' x,
    sfree (Z.to_nat 4097) (Some 152) st_gap = Some s' /\
    free_list s' F' /\ x ∈ F' /\
    x <= 152 - hdr_size /\
    152 - hdr_size + seg_size (rd (mem st_gap) (152 - hdr_size))
      <= x + seg_size (rd (mem s') x) /\
    (forall q, q ∈ ((∅ ∪ {[24]} ∪ {[152]} ∪ {[280]}) ∖ {[24]} : gset Z) -> q <> 152 ->
       seg_size (rd (mem s') (q - hdr_size)) = seg_size (rd (mem st_gap) (q - hdr_size)) /\
       in_use (rd (mem s') (q - hdr_size)) = 1).
Proof.
  apply (X11_free_covers_and_frames 4096 st_gap _ 152 (Z.to_nat 4097) reach_st_gap).
  - apply elem_of_difference. split; [|by rewrite elem_of_singleton].
    apply elem_of_union. left. apply elem_of_union. right. by apply elem_of_singleton.
  - apply enough_4097. reflexivity.
Defined.

Lemma free_alloc_abs R L1 a S L2 :
  coalesced (L1 ++ ASeg a S false :: L2) ->
  free_abs L1 a R (ASeg (a + R) (S - R) false :: L2) = L1 ++ ASeg a (R + (S - R)) false :: L2 /\
  free_abs L1 a S L2 = L1 ++ ASeg a S false :: L2.
Proof.
  intros Hc. apply coalesced_app_iff in Hc as (_ & Hc2 & [Hl | Hl]); [|done].
  apply coalesced_cons in Hc2 as [[? | Hh] _]; [done |].
  unfold free_abs. split.
  - simpl. by apply merge_prev_lastu.
  - destruct L2 as [|y L2]; simpl; [by apply merge_prev_lastu |].
    simpl in Hh. rewrite Hh. simpl. by apply merge_prev_lastu.
Qed.

(** X12. Round trip.  In a reachable state, releasing the pointer that
    [smalloc] just returned gives back the segments and the free list there
    were before the allocation: the same tiling, the same sizes and flags,
    the same free-list order. *)
Theorem X12_alloc_then_free_restores region_size s live n fuel p st s1 L F :
  reachable region_size s live -> payload_ok n -> enough s fuel ->
  smalloc fuel n s = Some (Some p, st, s1) ->
  segments s L -> free_list s F ->
  exists s2,
    sfree fuel (Some p) s1 = Some s2 /\
    segments s2 L /\ free_list s2 F /\
    (forall x, x ∈ L ->
       seg_size (rd (mem s2) x) = seg_size (rd (mem s) x) /\
       in_use (rd (mem s2) x) = in_use (rd (mem s) x)).
Proof.
  intros Hr Hn Hf Hs Hseg HF. destruct (reachable_rep _ _ _ Hr) as (K & HR & _).
  pose proof (rep_wf _ _ _ HR) as HW.
  apply (wf_segments_eq _ _ HW) in Hseg. apply (wf_free_list_eq _ _ HW) in HF. subst L F.
  destruct (smalloc_rep _ s K live n HR Hn Hf)
    as [[_ Hs'] | (L1 & a & Sa & L2 & s' & -> & HRS & _ & Hs' & HR' & Ht')];
    rewrite Hs' in Hs; [done |].
  injection Hs as <- <- <-.
  pose proof (rep_wf _ _ _ HR') as HW'.
  assert (Hf' : enough s' fuel) by (unfold enough in *; by rewrite Ht').
  destruct (free_alloc_abs (required n) L1 a Sa L2 (rep_coal _ _ _ HR)) as [E1 E2].
  assert (exists s2, sfree fuel (Some (a + hdr_size)) s' = Some s2 /\
                     Wf s2 (L1 ++ ASeg a Sa false :: L2)) as (s2 & Hs2 & HW2).
  { unfold alloc_abs in HW'. destruct (hdr_size <=? Sa - required n).
    - destruct (sfree_wf fuel s' _ _ _ _ HW' Hf') as (s2 & Hs2 & HW2 & _).
      exists s2. split; [done |]. rewrite E1 in HW2.
      by replace (required n + (Sa - required n)) with Sa in HW2 by lia.
    - destruct (sfree_wf fuel s' _ _ _ _ HW' Hf') as (s2 & Hs2 & HW2 & _).
      exists s2. split; [done |]. by rewrite E2 in HW2. }
  exists s2. split; [done |]. split; [by apply wf_segments |].
  split; [by apply wf_free_list |].
  intros x Hx. apply elem_of_map_addr in Hx as (y & Hy & <-).
  destruct (wf_agree _ _ HW _ Hy) as [-> ->]. by apply (wf_agree _ _ HW2).
Qed.

Lemma X12_witness :
  exists s2,
    sfree (Z.to_nat 4097) (Some 408) (run_smalloc 200 st_gap) = Some s2 /\
    segments s2 [0; 128; 256; 384] /\ free_list s2 [0; 384] /\
    (forall x, x ∈ [0; 128; 256; 384] ->
       seg_size (rd (mem s2) x) = seg_size (rd (mem st_gap) x) /\
       in_use (rd (mem s2) x) = in_use (rd (mem st_gap) x)).
Proof.
  apply (X12_alloc_then_free_restores 4096 st_gap _ 200 (Z.to_nat 4097) 408
           (MallocStatus 1 408 1) (run_smalloc 200 st_gap) _ _ reach_st_gap).
  - apply payload_ok_small. lia.
  - apply enough_4097. reflexivity.
  - vm_compute. reflexivity.
  - vm_compute. repeat split; reflexivity.
  - vm_compute. repeat split; reflexivity.
Defined.

(** ** The free-list primitives on their own *)

Lemma dll_links_eq m m' p F q x :
  dll m p F q -> dll m' p F q -> x ∈ F ->
  next (rd m' x) = next (rd m x) /\ prev (rd m' x) = prev (rd m x).
Proof.
  revert p. induction F as [|a F IH]; intros p Hd Hd' Hx; [inversion Hx |].
  destruct Hd as (Hp & Hn & Hd). destruct Hd' as (Hp' & Hn' & Hd').
  apply elem_of_cons in Hx as [-> | Hx]; [split; congruence |].
  by apply (IH (Some a)).
Qed.


Lemma st_gap_flist : ssorted ([0] ++ 384 :: []) /\ flist st_gap ([0] ++ 384 :: []).
Proof.
  split.
  - simpl. split; [|split; [|done]]; intros b Hb.
    + apply list_elem_of_singleton in Hb as ->. lia.
    + inversion Hb.
  - vm_compute. repeat split; reflexivity.
Qed.



Lemma st_one_flist : ssorted ([] ++ 0 :: [128]) /\ flist st_one ([] ++ [128]).
Proof.
  split.
  - simpl. split; [|split; [|done]]; intros b Hb.
    + apply list_elem_of_singleton in Hb as ->. lia.
    + inversion Hb.
  - vm_compute. repeat split; reflexivity.
Qed.




(** ** A size that is not checked *)

(** X16. [smalloc] does not reject a negative size.  With
    [payload_size = -hdr_size] the aligned request is 0, so in a reachable
    state with a non-empty free list the head [h] is taken with 0 hops, the
    remainder header is written over [h]'s own header, and the call reports
    success while leaving [h] with size 0, marked in use, and still the head
    of the free list. *)
Theorem X16_negative_size_not_rejected region_size s live fuel h :
  reachable region_size s live -> free_list_head s = Some h ->
  exists s',
    smalloc (S fuel) (- hdr_size) s =
      Some (Some (h + hdr_size), MallocStatus 1 (h + hdr_size) 0, s') /\
    seg_size (rd (mem s') h) = 0 /\
    in_use (rd (mem s') h) = 1 /\
    free_list_head s' = Some h.
Proof.
  intros Hr Hh. destruct (reachable_rep _ _ _ Hr) as (L & HR & _).
  pose proof (rep_wf _ _ _ HR) as HW.
  destruct (wf_flist _ _ HW) as [Hhd Hd].
  pose proof (frees_sorted _ _ _ (wf_chain _ _ HW)) as Hs.
  pose proof (wf_total _ _ HW) as Ht.
  destruct (frees L) as [|h' F2] eqn:EF; [rewrite Hh in Hhd; done |].
  rewrite Hh in Hhd. injection Hhd as <-.
  destruct (frees_split L [] h F2 EF) as (L1 & Sh & L2 & -> & _ & _).
  destruct (chain_split _ _ _ _ _ (wf_chain _ _ HW)) as (_ & _ & Hh0 & Hhe & HSh & _).
  simpl in Hh0, Hhe, HSh.
  destruct (wf_agree _ _ HW (ASeg h Sh false)) as [HhS _];
    [apply elem_of_app; right; left |]. simpl in HhS.
  unfold smalloc. rewrite (wf_base _ _ HW).
  change (align_value (int_add hdr_size (- hdr_size)) 8) with 0.
  unfold search_for_fit. rewrite Hh. cbn [search_loop]. rewrite HhS.
  destruct (Z.leb_spec 0 Sh) as [_ | ?]; [|ar].
  rewrite !HhS.
  unfold int_sub. rewrite Z.sub_0_r, wrap_int_id by ar.
  destruct (Z.leb_spec hdr_size Sh) as [_ | ?]; [|ar].
  rewrite Z.add_0_r.
  pose proof (remove_head_spec s h F2 Hs (conj Hh Hd)) as Hrm.
  remember (remove_from_free_list h s) as s1 eqn:Es1. clear Es1.
  destruct Hrm as [[Hh1 Hd1] _].
  assert (Hfl : flist (with_mem s1 (set_seg_size h 0
                 (wr (mem s1) h (MemSeg Sh 0 None None)))) ([] ++ F2)).
  { split; [done |]. simpl. eapply dll_frame; [|exact Hd1].
    intros x Hx. destruct Hs as [Hlt _]. specialize (Hlt x Hx). fields. cases. }
  destruct (add_spec (S fuel) _ [] h F2 Hs Hfl ltac:(simpl; lia))
    as (s2 & -> & [Hh2 _] & (_ & _ & Hsz2 & _)).
  eexists. split; [by rewrite Z.sub_0_r |]. simpl.
  split; [|split; [|done]].
  - rewrite size_set_use, Hsz2. simpl. rewrite size_set_size. by rewrite decide_True.
  - rewrite use_set_use. by rewrite decide_True.
Qed.

Lemma X16_witness :
  exists s',
    smalloc 1 (- hdr_size) st_init =
      Some (Some (0 + hdr_size), MallocStatus 1 (0 + hdr_size) 0, s') /\
    seg_size (rd (mem s') 0) = 0 /\
    in_use (rd (mem s') 0) = 1 /\
    free_list_head s' = Some 0.
Proof.
  apply (X16_negative_size_not_rejected 4096 st_init ∅ 0 0 reach_st_init).
  reflexivity.
Defined.
